(** * Anchor location in Project Gutenberg texts: a model of [helper.py]

    This development embeds the text-processing half of [helper.py]
    ([normalise], [_map_norm_to_orig], [_pick_best_occurrence] and
    [locate_anchor]) and verifies the properties its specification states.

    Modelling choices.
    - A Python [str] is a sequence of Unicode code points: [list N].
    - Python integers are unbounded: [Z]. Offsets, lengths and dictionary
      keys are all [Z], as in the source; the value [-1] is the sentinel.
    - The dictionary built by [_map_norm_to_orig] is a [gmap Z Z].
    - A Python exception ([IndexError]) is the result [None] of an
      [option]-valued function. *)

From Stdlib Require Import ZArith NArith Lia List Ascii String.
From stdpp Require Import base option list gmap.

Local Open Scope Z_scope.

(** ** Characters and strings *)

Abbreviation str := (list N).

Definition LF : N := 10%N.
Definition CR : N := 13%N.
Definition SP : N := 32%N.

(** [str.isspace] on a single character, the regular-expression class
    [\s] on [str] patterns and the characters removed by [str.strip()] are
    all CPython's [Py_UNICODE_ISSPACE]: the code points below. *)
Definition isspace (c : N) : bool :=
  ((9 <=? c) && (c <=? 13) || (28 <=? c) && (c <=? 32)
   || (c =? 133) || (c =? 160) || (c =? 5760)
   || (8192 <=? c) && (c <=? 8202)
   || (c =? 8232) || (c =? 8233) || (c =? 8239) || (c =? 8287)
   || (c =? 12288))%N.

(** The character class [[^\S\n]]: whitespace other than the newline. *)
Definition is_hspace (c : N) : bool := isspace c && negb (c =? LF)%N.

(** [len(s)]. *)
Definition len (s : str) : Z := Z.of_nat (length s).

(** A string literal of ASCII characters as a Python string. *)
Definition py (s : string) : str :=
  List.map N_of_ascii (list_ascii_of_string s).

(** [s[i]] for an integer [i]: negative indices count from the end, an
    index out of range raises [IndexError]. *)
Definition getitem (s : str) (i : Z) : option N :=
  let j := if i <? 0 then i + len s else i in
  if (0 <=? j) && (j <? len s) then s !! Z.to_nat j else None.

(** The bound of a slice clipped to the string, as [PySlice_AdjustIndices]
    does for a step of one. *)
Definition clip (n i : Z) : Z :=
  if i <? 0 then Z.max 0 (i + n) else Z.min i n.

(** [s[lo:hi]]; never raises. *)
Definition slice (s : str) (lo hi : Z) : str :=
  let l := clip (len s) lo in
  let h := clip (len s) hi in
  take (Z.to_nat (h - l)) (drop (Z.to_nat l) s).

(** The character at a non-negative offset, where there is one. *)
Definition char_at (s : str) (k : Z) : option N :=
  if k <? 0 then None else s !! Z.to_nat k.

(** Equality of strings, as a boolean. *)
Definition str_eqb (a b : str) : bool := bool_decide (a = b).

(** [s.startswith(pat)]: the literal [pat] matches at the head of [s]. *)
Fixpoint startswith (pat s : str) : bool :=
  match pat, s with
  | [], _ => true
  | _ :: _, [] => false
  | p :: pat', c :: s' => (p =? c)%N && startswith pat' s'
  end.

(** [s.lstrip()], [s.rstrip()] and [s.strip()]. *)
Fixpoint lstrip (s : str) : str :=
  match s with
  | [] => []
  | c :: s' => if isspace c then lstrip s' else s
  end.

Definition rstrip (s : str) : str := reverse (lstrip (reverse s)).

Definition strip (s : str) : str := rstrip (lstrip s).

(** [s.split("\n")]: the pieces between newlines; always at least one. *)
Fixpoint split_lines (s : str) : list (list N) :=
  match s with
  | [] => [[]]
  | c :: s' =>
      if (c =? LF)%N then [] :: split_lines s'
      else match split_lines s' with
           | [] => [[c]]
           | l :: ls => (c :: l) :: ls
           end
  end.

(** ** [normalise] *)

(** [re.sub(r"\r", "\n", text)]. *)
Definition sub_cr (text : str) : str :=
  List.map (fun c => if (c =? CR)%N then LF else c) text.

(** What a maximal run of [run] newlines is replaced with by
    [re.sub(r"\n{3,}", "\n\n", text)]: the pattern matches the whole run
    when it has three newlines or more, and nothing of a shorter run. *)
Definition emit_newlines (run : nat) : str :=
  if (3 <=? run)%nat then [LF; LF] else replicate run LF.

(** [re.sub(r"\n{3,}", "\n\n", text)], with [run] the number of newlines
    read since the last other character. *)
Fixpoint sub_newlines (run : nat) (text : str) : str :=
  match text with
  | [] => emit_newlines run
  | c :: rest =>
      if (c =? LF)%N then sub_newlines (S run) rest
      else emit_newlines run ++ c :: sub_newlines 0 rest
  end.

(** [re.sub(r"[^\S\n]+", " ", text)]: every maximal run of whitespace
    other than newlines becomes one space; [in_run] says that the previous
    character belonged to such a run. *)
Fixpoint sub_hspace (in_run : bool) (text : str) : str :=
  match text with
  | [] => []
  | c :: rest =>
      if is_hspace c then
        if in_run then sub_hspace true rest else SP :: sub_hspace true rest
      else c :: sub_hspace false rest
  end.

Definition normalise (text : str) : str :=
  let text := sub_cr text in
  let text := sub_newlines 0 text in
  let text := sub_hspace false text in
  strip text.

(** ** [_map_norm_to_orig] *)

(** [while original[orig_idx].isspace(): orig_idx += 1], returning the
    cursor the loop stops at, or [None] when [original[orig_idx]] raises.
    The loop reads one more character of [original] at each turn, so it
    makes at most [length original] turns from a cursor that is not
    negative: [fuel] counts them. *)
Fixpoint skip_space (fuel : nat) (original : str) (orig_idx : Z) : option Z :=
  match getitem original orig_idx with
  | None => None
  | Some ch =>
      if isspace ch then
        match fuel with
        | O => None
        | S fuel' => skip_space fuel' original (orig_idx + 1)
        end
      else Some orig_idx
  end.

(** The body of [for norm_idx, ch in enumerate(normalised)], on the part
    [rest] of [normalised] still to read. *)
Fixpoint map_loop (original rest : str) (norm_idx : Z)
    (char_map : gmap Z Z) (orig_idx : Z) : option (gmap Z Z) :=
  match rest with
  | [] => Some char_map
  | ch :: rest' =>
      if isspace ch then
        map_loop original rest' (norm_idx + 1) char_map orig_idx
      else
        match skip_space (length original) original orig_idx with
        | None => None
        | Some orig_idx' =>
            map_loop original rest' (norm_idx + 1)
              (<[norm_idx := orig_idx']> char_map) (orig_idx' + 1)
        end
  end.

Definition _map_norm_to_orig (original normalised : str) : option (gmap Z Z) :=
  map_loop original normalised 0 ∅ 0.

(** ** [_pick_best_occurrence] *)

Definition blank_line : str := [LF; LF].

(** The loop [for idx in positions], returning the first [idx] whose
    test succeeds. *)
Fixpoint pick_loop (positions : list Z) (text : str) (anchor_len : Z)
    : option Z :=
  match positions with
  | [] => None
  | idx :: positions' =>
      let end_ := idx + anchor_len in
      if str_eqb (slice text end_ (end_ + 2)) blank_line then Some idx
      else pick_loop positions' text anchor_len
  end.

(** [None] is the [IndexError] of [positions[0]] on an empty list. *)
Definition _pick_best_occurrence (positions : list Z) (text : str)
    (anchor_len : Z) : option Z :=
  match pick_loop positions text anchor_len with
  | Some idx => Some idx
  | None => head positions
  end.

(** ** Searching *)

(** [[m.start() for m in re.finditer(re.escape(pat), s)]]: the starts of
    the matches of the literal [pat], left to right and not overlapping.
    [pos] is the offset of [s] in the searched string and [skip] the number
    of characters of the last match still to pass. The empty pattern
    matches at every offset, the end of the string included. *)
Fixpoint finditer_from (pat s : str) (pos : Z) (skip : nat) : list Z :=
  match s with
  | [] => match pat with [] => [pos] | _ :: _ => [] end
  | _ :: s' =>
      match skip with
      | S skip' => finditer_from pat s' (pos + 1) skip'
      | O =>
          if startswith pat s
          then pos :: finditer_from pat s' (pos + 1) (length pat - 1)%nat
          else finditer_from pat s' (pos + 1) 0
      end
  end.

Definition finditer_starts (pat s : str) : list Z := finditer_from pat s 0 0.

(** [s.rfind(pat)]: the highest offset at which [pat] occurs, or [-1]. *)
Fixpoint rfind_from (pat s : str) (pos : Z) : Z :=
  match s with
  | [] => match pat with [] => pos | _ :: _ => -1 end
  | _ :: s' =>
      let r := rfind_from pat s' (pos + 1) in
      if r =? -1 then (if startswith pat s then pos else -1) else r
  end.

Definition rfind (s pat : str) : Z := rfind_from pat s 0.

(** ** [locate_anchor] *)

(** [line.strip()] is true: the line is not empty or all whitespace. *)
Definition nonblank (line : str) : bool :=
  match strip line with [] => false | _ :: _ => true end.

(** Strategy 2, the single-line fallback, from [lines = ...] to the end of
    the function. [lines[0]] is [head lines] and [lines[-1]] is [last lines];
    they are [None] exactly when [not lines]. *)
Definition single_line_fallback (norm_text marker : str) (is_start : bool)
    (char_map : gmap Z Z) : option (Z * Z) :=
  let lines := List.filter nonblank (split_lines marker) in
  match (if is_start then head lines else last lines) with
  | None => Some (-1, 0)
  | Some line =>
      let line_marker := normalise line in
      let positions := finditer_starts line_marker norm_text in
      match positions with
      | [] => Some (-1, 0)
      | _ :: _ =>
          best_idx ← (if is_start
                      then _pick_best_occurrence positions norm_text (len line_marker)
                      else last positions);
          match char_map !! best_idx with
          | None => Some (-1, 0)
          | Some o => Some (o, len line_marker)
          end
      end
  end.

(** [None] is an exception escaping the function; [Some (o, l)] is the
    returned tuple. *)
Definition locate_anchor (text marker : str) (is_start : bool)
    : option (Z * Z) :=
  let norm_text := normalise text in
  let norm_marker := normalise marker in
  char_map ← _map_norm_to_orig text norm_text;
  let fallback := single_line_fallback norm_text marker is_start char_map in
  if is_start then
    let positions := finditer_starts norm_marker norm_text in
    match positions with
    | [] => fallback
    | _ :: _ =>
        best_idx ← _pick_best_occurrence positions norm_text (len norm_marker);
        match char_map !! best_idx with
        | Some o => Some (o, len marker)
        | None => fallback
        end
    end
  else
    let idx := rfind norm_text norm_marker in
    if negb (idx =? -1) then
      match char_map !! idx with
      | Some o => Some (o, len marker)
      | None => fallback
      end
    else fallback.

(** ** Notions the properties are stated with *)

(** A string with its whitespace removed. *)
Definition remove_space (s : str) : str :=
  List.filter (fun c => negb (isspace c)) s.

(** [pat] occurs in [s] at offset [k]. *)
Definition occurs_at (pat s : str) (k : Z) : Prop :=
  exists before after : str, s = before ++ pat ++ after /\ len before = k.

(** No newline run of [s] reaches three, [run] newlines having been read
    just before [s]. *)
Fixpoint nl_runs_ok (run : nat) (s : str) : bool :=
  match s with
  | [] => true
  | c :: s' =>
      if (c =? LF)%N then (S run <? 3)%nat && nl_runs_ok (S run) s'
      else nl_runs_ok 0 s'
  end.

(** Every whitespace of [s] other than a newline is one space standing
    alone; [in_run] says that such a character was read just before [s]. *)
Fixpoint hspace_ok (in_run : bool) (s : str) : bool :=
  match s with
  | [] => true
  | c :: s' =>
      if is_hspace c then negb in_run && (c =? SP)%N && hspace_ok true s'
      else hspace_ok false s'
  end.

(** The match of length [anchor_len] at [p] is followed by a blank line:
    [text[p+anchor_len : p+anchor_len+2] == "\n\n"]. *)
Definition followed_by_blank_line (text : str) (anchor_len p : Z) : Prop :=
  slice text (p + anchor_len) (p + anchor_len + 2) = blank_line.

(** [k] is the last offset at which [pat] occurs in [s]. *)
Definition last_occurrence (pat s : str) (k : Z) : Prop :=
  occurs_at pat s k /\ forall k', occurs_at pat s k' -> k' <= k.

(** Strategy 1 of [locate_anchor] yields nothing returnable: the normalised
    marker does not occur in the normalised text, or the offset chosen for
    it (by the Occurrence Selector for a start anchor, the last occurrence
    for an end anchor) is not a key of the Position Map. *)
Definition strategy1_nothing (norm_text norm_marker : str) (is_start : bool)
    (char_map : gmap Z Z) : Prop :=
  (forall k, ~ occurs_at norm_marker norm_text k)
  \/ (exists k,
        (if is_start
         then _pick_best_occurrence (finditer_starts norm_marker norm_text)
                norm_text (len norm_marker) = Some k
         else last_occurrence norm_marker norm_text k)
        /\ char_map !! k = None).

(** A text and a two-line marker whose second line is not in the text:
    the case Strategy 2 is made for. *)
Definition chapter_text : str :=
  py "  CHAPTER I." ++ [CR; LF; CR; LF] ++ py "Down the hole".

Definition chapter_marker : str :=
  py "CHAPTER I" ++ [LF] ++ py "Down a hole".

Definition chapter_map : gmap Z Z :=
  default ∅ (_map_norm_to_orig chapter_text (normalise chapter_text)).


(** [ps] lists the matches of [pat] that a scan of [s] from offset [from]
    finds, left to right and not overlapping: each is the first occurrence
    that starts at or after the end of the match before it, one character
    further when the pattern is empty. *)
Inductive matches_from (pat s : str) : Z -> list Z -> Prop :=
  | matches_none (from : Z) :
      (forall k, from <= k -> ~ occurs_at pat s k) ->
      matches_from pat s from []
  | matches_cons (from k : Z) (ps : list Z) :
      from <= k -> occurs_at pat s k ->
      (forall k', from <= k' < k -> ~ occurs_at pat s k') ->
      matches_from pat s (k + Z.max 1 (len pat)) ps ->
      matches_from pat s from (k :: ps).

Definition nonoverlapping_matches (pat s : str) (ps : list Z) : Prop :=
  matches_from pat s 0 ps.

(** [k] is the choice of the Occurrence Selector in [ps]: the first match
    followed by a blank line, and the first match when none is. *)
Definition selector_choice (text : str) (anchor_len : Z) (ps : list Z)
    (k : Z) : Prop :=
  (exists before after,
     ps = before ++ k :: after
     /\ followed_by_blank_line text anchor_len k
     /\ Forall (fun q => ~ followed_by_blank_line text anchor_len q) before)
  \/ (Forall (fun q => ~ followed_by_blank_line text anchor_len q) ps
      /\ head ps = Some k).

(** [line] is the line of [marker] that Strategy 2 retains: a whole line
    (no newline in it, the start of the marker or a newline before it, the
    end of the marker or a newline after it) with a character that is not
    whitespace, with only whitespace before it for a start anchor and only
    whitespace after it for an end anchor. *)
Definition retained_line (marker : str) (is_start : bool) (line : str)
    : Prop :=
  Forall (fun c => c <> LF) line
  /\ ~ Forall (fun c => isspace c = true) line
  /\ exists before after,
       marker = before ++ line ++ after
       /\ (before = [] \/ last before = Some LF)
       /\ (after = [] \/ head after = Some LF)
       /\ (if is_start then Forall (fun c => isspace c = true) before
           else Forall (fun c => isspace c = true) after).

(** Strategy 1 of [locate_anchor] yields nothing returnable: the normalised
    marker does not occur in the normalised text, or the offset chosen for
    it (the choice of the Occurrence Selector among the matches for a start
    anchor, the last occurrence for an end anchor) is not a key of the
    Position Map. *)
Definition strategy1_unreturnable (norm_text norm_marker : str)
    (is_start : bool) (char_map : gmap Z Z) : Prop :=
  (forall k, ~ occurs_at norm_marker norm_text k)
  \/ (exists k,
        (if is_start
         then exists ps,
                nonoverlapping_matches norm_marker norm_text ps
                /\ selector_choice norm_text (len norm_marker) ps k
         else last_occurrence norm_marker norm_text k)
        /\ char_map !! k = None).

(** ** The metadata helpers *)

(** Two tables of the Unicode database are parameters of the functions
    below: [isdigit], the class [\d] of a [str] pattern, and [lower], the
    method [str.lower]; with [re.IGNORECASE] a pattern character [p] matches
    a text character [c] when [ieq p c]. The properties proved hold for
    every such table; [ascii_isdigit], [ascii_lower] and [ascii_ieq] are
    their restrictions to ASCII, used to run the functions. *)
Definition ascii_isdigit (c : N) : bool := ((48 <=? c) && (c <=? 57))%N.

Definition ascii_lower_char (c : N) : N :=
  if ((65 <=? c) && (c <=? 90))%N then (c + 32)%N else c.

Definition ascii_lower (s : str) : str := List.map ascii_lower_char s.

Definition ascii_ieq (p c : N) : bool :=
  (ascii_lower_char p =? ascii_lower_char c)%N.

Definition SLASH : N := 47%N.

(** *** [_clean_text] *)

(** [re.sub(r"\s+", " ", s)]: every maximal run of whitespace becomes one
    space; [in_run] says that the previous character belonged to a run. *)
Fixpoint sub_space (in_run : bool) (s : str) : str :=
  match s with
  | [] => []
  | c :: rest =>
      if isspace c then
        if in_run then sub_space true rest else SP :: sub_space true rest
      else c :: sub_space false rest
  end.

(** The argument is an [Optional[str]]; [not s] holds of [None] and of the
    empty string. *)
Definition _clean_text (s : option (list N)) : str :=
  match s with
  | None => []
  | Some [] => []
  | Some (c :: rest) => strip (sub_space false (c :: rest))
  end.

(** Every whitespace character of [s] is one space standing alone;
    [in_run] says that a whitespace character was read just before [s]. *)
Fixpoint space_ok (in_run : bool) (s : str) : bool :=
  match s with
  | [] => true
  | c :: s' =>
      if isspace c then negb in_run && (c =? SP)%N && space_ok true s'
      else space_ok false s'
  end.

(** *** Searching with a regular expression *)

(** [re.search]: the match at the leftmost offset that has one, each
    offset up to the end of the string being tried in turn with [m], the
    matcher of the pattern at the head of a string. *)
Fixpoint re_search (m : list N -> option (list N)) (s : str)
    : option (list N) :=
  match m s with
  | Some r => Some r
  | None =>
      match s with
      | [] => None
      | _ :: s' => re_search m s'
      end
  end.

(** *** [_extract_ebook_id] and [plaintext_url] *)

(** [\d*] at the head of [s], greedy: the longest run of digits. *)
Fixpoint take_digits (isdigit : N -> bool) (s : str) : str :=
  match s with
  | [] => []
  | c :: s' => if isdigit c then c :: take_digits isdigit s' else []
  end.

(** [ebooks/(\d+)] at the head of [s]: group 1. *)
Definition match_ebooks (isdigit : N -> bool) (s : str) : option (list N) :=
  if startswith (py "ebooks/") s then
    match take_digits isdigit (drop (length (py "ebooks/")) s) with
    | [] => None
    | c :: d => Some (c :: d)
    end
  else None.

(** [(?:/|$)] at the head of [rest]: a slash, the end of the string, or a
    newline that ends the string. *)
Definition end_ok (rest : str) : bool :=
  match rest with
  | [] => true
  | c :: r => (c =? SLASH)%N || (c =? LF)%N && bool_decide (r = [])
  end.

(** [(\d+)(?:/|$)] at the head of [t]: group 2. The digits are taken
    greedily and given back one at a time until [(?:/|$)] matches. *)
Fixpoint digits_then_end (isdigit : N -> bool) (t : str) : option (list N) :=
  match t with
  | [] => None
  | c :: t' =>
      if isdigit c then
        match digits_then_end isdigit t' with
        | Some d => Some (c :: d)
        | None => if end_ok t' then Some [c] else None
        end
      else None
  end.

(** [/epub/(\d+)(?:/|$)] at the head of [s]: group 2. *)
Definition match_epub (isdigit : N -> bool) (s : str) : option (list N) :=
  if startswith (py "/epub/") s then
    digits_then_end isdigit (drop (length (py "/epub/")) s)
  else None.

(** The alternation at the head of [s], left branch first, giving
    [match.group(1) or match.group(2)]: group 1 is a non-empty string when
    the left branch matched and [None] otherwise. *)
Definition match_id_at (isdigit : N -> bool) (s : str) : option (list N) :=
  match match_ebooks isdigit s with
  | Some d => Some d
  | None => match_epub isdigit s
  end.

(** [None] is Python's [None]. *)
Definition _extract_ebook_id (isdigit : N -> bool) (url : str)
    : option (list N) :=
  re_search (match_id_at isdigit) url.

Definition plaintext_url (ebook_id : str) : str :=
  py "https://www.gutenberg.org/cache/epub/" ++ ebook_id ++ py "/pg"
    ++ ebook_id ++ py ".txt".

(** *** [_choose_genre] *)

Definition genre_keywords : list (list N) :=
  List.map py
    ["fiction"; "novel"; "poetry"; "drama"; "science fiction"; "fantasy";
     "mystery"; "detective"; "horror"; "romance"; "children"; "biography";
     "historical"; "adventure"; "satire"]%string.

(** [pat in s]. *)
Fixpoint str_in (pat s : str) : bool :=
  match s with
  | [] => startswith pat []
  | _ :: s' => startswith pat s || str_in pat s'
  end.

(** [for s in lowered: if kw in s: ...]: the first [s] that passes. *)
Fixpoint first_containing (kw : str) (lowered : list (list N))
    : option (list N) :=
  match lowered with
  | [] => None
  | s :: lowered' =>
      if str_in kw s then Some s else first_containing kw lowered'
  end.

(** [for kw in genre_keywords: for s in lowered: if kw in s: ...]. *)
Fixpoint first_keyword_hit (keywords lowered : list (list N))
    : option (list N) :=
  match keywords with
  | [] => None
  | kw :: keywords' =>
      match first_containing kw lowered with
      | Some s => Some s
      | None => first_keyword_hit keywords' lowered
      end
  end.

(** [l.index(x)]; [None] is its [ValueError]. *)
Fixpoint list_index (x : str) (l : list (list N)) : option nat :=
  match l with
  | [] => None
  | y :: l' => if str_eqb y x then Some 0%nat else S <$> list_index x l'
  end.

(** [s.split()]: the maximal runs of characters that are not whitespace;
    [cur] is the run being read, last character first. *)
Fixpoint split_ws (cur : str) (s : str) : list (list N) :=
  match s with
  | [] => match cur with [] => [] | _ :: _ => [reverse cur] end
  | c :: s' =>
      if isspace c then
        match cur with
        | [] => split_ws [] s'
        | _ :: _ => reverse cur :: split_ws [] s'
        end
      else split_ws (c :: cur) s'
  end.

(** [len(s.split()) <= 4]. *)
Definition is_short (s : str) : bool :=
  (length (split_ws [] s) <=? 4)%nat.

(** The function with its list of keywords as an argument. [None] is an
    exception ([ValueError] of [index], [IndexError] of a subscript). *)
Definition choose_genre_from (keywords : list (list N))
    (lower : list N -> list N) (subjects : list (list N))
    : option (list N) :=
  match subjects with
  | [] => Some []
  | first :: _ =>
      let lowered := List.map lower subjects in
      match first_keyword_hit keywords lowered with
      | Some s => idx ← list_index s lowered; subjects !! idx
      | None =>
          match List.filter is_short subjects with
          | short :: _ => Some short
          | [] => Some first
          end
      end
  end.

Definition _choose_genre (lower : list N -> list N)
    (subjects : list (list N)) : option (list N) :=
  choose_genre_from genre_keywords lower subjects.

(** *** [_extract_publication_date] *)

(** The literal [pat] at the head of [s], with [re.IGNORECASE]. *)
Fixpoint istartswith (ieq : N -> N -> bool) (pat s : str) : bool :=
  match pat, s with
  | [], _ => true
  | _ :: _, [] => false
  | p :: pat', c :: s' => ieq p c && istartswith ieq pat' s'
  end.

(** [\s+] followed by the rest [k] of the pattern: the longest run of
    whitespace first, then shorter ones. *)
Fixpoint space_plus_then (k : list N -> option (list N)) (s : str)
    : option (list N) :=
  match s with
  | [] => None
  | c :: s' =>
      if isspace c then
        match space_plus_then k s' with
        | Some r => Some r
        | None => k s'
        end
      else None
  end.

(** [(\d{4})] at the head of [s]. *)
Definition four_digits (isdigit : N -> bool) (s : str) : option (list N) :=
  match s with
  | a :: b :: c :: d :: _ =>
      if isdigit a && isdigit b && isdigit c && isdigit d
      then Some [a; b; c; d] else None
  | _ => None
  end.

(** [published\s+in\s+(\d{4})] at the head of [s]. *)
Definition published_in (ieq : N -> N -> bool) (isdigit : N -> bool)
    (s : str) : option (list N) :=
  if istartswith ieq (py "published") s then
    space_plus_then
      (fun t =>
         if istartswith ieq (py "in") t
         then space_plus_then (four_digits isdigit) (drop (length (py "in")) t)
         else None)
      (drop (length (py "published")) s)
  else None.

(** [(?:word\s+)?] followed by the rest [k] of the pattern: with the
    word first, then without. *)
Definition optional_word_then (ieq : N -> N -> bool) (word : str)
    (k : list N -> option (list N)) (s : str) : option (list N) :=
  match (if istartswith ieq word s
         then space_plus_then k (drop (length word) s) else None) with
  | Some r => Some r
  | None => k s
  end.

(** The two patterns of the list [patterns], as matchers. *)
Definition date_patterns (ieq : N -> N -> bool) (isdigit : N -> bool)
    : list (list N -> option (list N)) :=
  [optional_word_then ieq (py "first") (published_in ieq isdigit);
   optional_word_then ieq (py "originally") (published_in ieq isdigit)].

(** [for pattern in patterns: match = re.search(...); if match: return
    match.group(1)], and [return None] after the loop. *)
Fixpoint first_search (patterns : list (list N -> option (list N)))
    (s : str) : option (list N) :=
  match patterns with
  | [] => None
  | m :: patterns' =>
      match re_search m s with
      | Some r => Some r
      | None => first_search patterns' s
      end
  end.

Definition _extract_publication_date (ieq : N -> N -> bool)
    (isdigit : N -> bool) (summary_text : str) : option (list N) :=
  match summary_text with
  | [] => None
  | _ :: _ => first_search (date_patterns ieq isdigit) summary_text
  end.

(** ** Running the functions on the specification's examples *)

Example normalise_crlf :
  normalise (py "a" ++ [CR; LF; LF; LF; LF] ++ py "b") = py "a" ++ [LF; LF] ++ py "b".
Proof. vm_compute. reflexivity. Qed.

Example normalise_spaces :
  normalise (py "a   " ++ [9%N] ++ py "b") = py "a b".
Proof. vm_compute. reflexivity. Qed.

Example locate_not_found :
  locate_anchor (py "hello world") (py "goodbye") true = Some (-1, 0).
Proof. vm_compute. reflexivity. Qed.

Example locate_toc :
  locate_anchor
    (py "CHAPTER ONE continues here" ++ [LF] ++ py "CHAPTER ONE" ++ [LF; LF]
       ++ py "It was a dark night")
    (py "CHAPTER ONE") true = Some (27, 11).
Proof. vm_compute. reflexivity. Qed.

(** ** Characters *)

Lemma isspace_LF : isspace LF = true.
Proof. reflexivity. Qed.

Lemma isspace_CR : isspace CR = true.
Proof. reflexivity. Qed.

Lemma isspace_SP : isspace SP = true.
Proof. reflexivity. Qed.

Lemma is_hspace_isspace c : is_hspace c = true -> isspace c = true.
Proof. unfold is_hspace. intros H. apply andb_true_iff in H. tauto. Qed.

Lemma is_hspace_not_LF c : is_hspace c = true -> (c =? LF)%N = false.
Proof.
  unfold is_hspace. intros H. apply andb_true_iff in H.
  destruct H as [_ H]. now apply negb_true_iff in H.
Qed.

Lemma not_hspace_cases c :
  is_hspace c = false -> isspace c = false \/ c = LF.
Proof.
  unfold is_hspace. intros H. apply andb_false_iff in H.
  destruct H as [H | H]; [now left | right].
  apply negb_false_iff in H. now apply N.eqb_eq in H.
Qed.



(** ** [normalise] keeps the characters that are not whitespace *)

Lemma remove_space_app (a b : str) :
  remove_space (a ++ b) = remove_space a ++ remove_space b.
Proof. apply List.filter_app. Qed.

Lemma remove_space_sub_cr (s : str) : remove_space (sub_cr s) = remove_space s.
Proof.
  induction s as [| c s IH]; [reflexivity |]. simpl.
  destruct (c =? CR)%N eqn:E.
  - apply N.eqb_eq in E. subst c. rewrite isspace_LF, isspace_CR. exact IH.
  - now rewrite IH.
Qed.

Lemma remove_space_replicate_LF n : remove_space (replicate n LF) = [].
Proof. induction n as [| n IH]; [reflexivity |]. simpl. exact IH. Qed.

Lemma remove_space_emit run : remove_space (emit_newlines run) = [].
Proof.
  unfold emit_newlines. destruct (3 <=? run)%nat; [reflexivity |].
  apply remove_space_replicate_LF.
Qed.

Lemma remove_space_sub_newlines (s : str) run :
  remove_space (sub_newlines run s) = remove_space s.
Proof.
  revert run. induction s as [| c s IH]; intros run; simpl.
  - apply remove_space_emit.
  - destruct (c =? LF)%N eqn:E.
    + apply N.eqb_eq in E. subst c. rewrite isspace_LF. simpl. apply IH.
    + rewrite remove_space_app, remove_space_emit. simpl. now rewrite IH.
Qed.

Lemma remove_space_sub_hspace (s : str) b :
  remove_space (sub_hspace b s) = remove_space s.
Proof.
  revert b. induction s as [| c s IH]; intros b; simpl; [reflexivity |].
  destruct (is_hspace c) eqn:E.
  - rewrite (is_hspace_isspace _ E). simpl.
    destruct b; simpl; apply IH.
  - simpl. now rewrite IH.
Qed.

(** [lstrip] and [rstrip] take whitespace off one end. *)
Lemma lstrip_split (s : str) :
  exists w, s = w ++ lstrip s /\ Forall (fun c => isspace c = true) w.
Proof.
  induction s as [| c s (w & Hs & Hw)]; simpl.
  - exists []. split; [reflexivity | constructor].
  - destruct (isspace c) eqn:E.
    + exists (c :: w). split; [simpl; now f_equal | now constructor].
    + exists []. split; [reflexivity | constructor].
Qed.

Lemma rstrip_split (s : str) :
  exists w, s = rstrip s ++ w /\ Forall (fun c => isspace c = true) w.
Proof.
  unfold rstrip. destruct (lstrip_split (reverse s)) as (w & Hs & Hw).
  exists (reverse w). split.
  - rewrite <- reverse_app, <- Hs. now rewrite reverse_involutive.
  - now apply Forall_reverse.
Qed.

Lemma strip_split (s : str) :
  exists w1 w2, s = w1 ++ strip s ++ w2
    /\ Forall (fun c => isspace c = true) w1
    /\ Forall (fun c => isspace c = true) w2.
Proof.
  unfold strip. destruct (lstrip_split s) as (w1 & H1 & Hw1).
  destruct (rstrip_split (lstrip s)) as (w2 & H2 & Hw2).
  exists w1, w2. split; [| split; assumption].
  now rewrite <- H2.
Qed.

Lemma remove_space_all_space (w : str) :
  Forall (fun c => isspace c = true) w -> remove_space w = [].
Proof.
  induction 1 as [| c w Hc _ IH]; [reflexivity |]. simpl. now rewrite Hc.
Qed.

Lemma remove_space_strip (s : str) : remove_space (strip s) = remove_space s.
Proof.
  destruct (strip_split s) as (w1 & w2 & Hs & H1 & H2).
  rewrite Hs at 2. rewrite !remove_space_app.
  rewrite (remove_space_all_space _ H1), (remove_space_all_space _ H2).
  now rewrite app_nil_r.
Qed.

Lemma remove_space_normalise (s : str) :
  remove_space (normalise s) = remove_space s.
Proof.
  unfold normalise.
  now rewrite remove_space_strip, remove_space_sub_hspace,
    remove_space_sub_newlines, remove_space_sub_cr.
Qed.

(** ** The shape of normalised strings *)

Lemma nl_runs_ok_mono (s : str) k k' :
  (k' <= k)%nat -> nl_runs_ok k s = true -> nl_runs_ok k' s = true.
Proof.
  revert k k'. induction s as [| c s IH]; intros k k' Hle; cbn [nl_runs_ok];
    [reflexivity |].
  destruct (c =? LF)%N; [| auto].
  intros H. apply andb_true_iff in H as [H1 H2].
  apply andb_true_iff. split.
  - apply Nat.ltb_lt in H1. apply Nat.ltb_lt. lia.
  - apply (IH (S k)); [lia | exact H2].
Qed.

Lemma nl_runs_ok_emit run : nl_runs_ok 0 (emit_newlines run) = true.
Proof. destruct run as [| [| [| run]]]; reflexivity. Qed.

Lemma nl_runs_ok_emit_app run c (t : str) :
  (c =? LF)%N = false -> nl_runs_ok 0 t = true ->
  nl_runs_ok 0 (emit_newlines run ++ c :: t) = true.
Proof.
  intros Hc Ht.
  destruct run as [| [| [| run]]]; cbn; rewrite Hc; exact Ht.
Qed.

Lemma nl_runs_ok_sub_newlines (s : str) run :
  nl_runs_ok 0 (sub_newlines run s) = true.
Proof.
  revert run. induction s as [| c s IH]; intros run; cbn [sub_newlines].
  - apply nl_runs_ok_emit.
  - destruct (c =? LF)%N eqn:E; [apply IH |].
    apply nl_runs_ok_emit_app; [exact E | apply IH].
Qed.

Lemma nl_runs_ok_sub_hspace (s : str) b k :
  (b = true -> k = 0%nat) -> nl_runs_ok k s = true ->
  nl_runs_ok k (sub_hspace b s) = true.
Proof.
  revert b k. induction s as [| c s IH]; intros b k Hb;
    cbn [sub_hspace nl_runs_ok]; [reflexivity |].
  destruct (is_hspace c) eqn:Eh.
  - rewrite (is_hspace_not_LF _ Eh). intros H.
    destruct b.
    + rewrite (Hb eq_refl). now apply IH.
    + cbn [nl_runs_ok]. change (SP =? LF)%N with false. cbv iota.
      now apply IH.
  - cbn [nl_runs_ok]. destruct (c =? LF)%N.
    + intros H. apply andb_true_iff in H as [H1 H2].
      apply andb_true_iff. split; [exact H1 |].
      apply IH; [discriminate | exact H2].
    + intros H. apply IH; [discriminate | exact H].
Qed.

Lemma nl_runs_ok_app_l k (a b : str) :
  nl_runs_ok k (a ++ b) = true -> nl_runs_ok k a = true.
Proof.
  revert k. induction a as [| c a IH]; intros k; [reflexivity |].
  cbn [app nl_runs_ok]. destruct (c =? LF)%N; [| apply IH].
  intros H. apply andb_true_iff in H as [H1 H2].
  apply andb_true_iff. split; [exact H1 | now apply IH].
Qed.

Lemma nl_runs_ok_app_r k (a b : str) :
  nl_runs_ok k (a ++ b) = true -> nl_runs_ok 0 b = true.
Proof.
  revert k. induction a as [| c a IH]; intros k.
  - apply nl_runs_ok_mono. lia.
  - cbn [app nl_runs_ok]. destruct (c =? LF)%N; [| apply IH].
    intros H. apply andb_true_iff in H as [_ H2]. now apply IH in H2.
Qed.

(** A newline run of three is refused wherever it stands. *)
Lemma nl_runs_ok_triple k (l1 l2 : str) :
  nl_runs_ok k (l1 ++ LF :: LF :: LF :: l2) = false.
Proof.
  revert k. induction l1 as [| c l1 IH]; intros k.
  - cbn [app nl_runs_ok]. change (LF =? LF)%N with true. cbv iota.
    replace (S (S (S k)) <? 3)%nat with false
      by (symmetry; apply Nat.ltb_ge; lia).
    now rewrite !andb_false_r.
  - cbn [app nl_runs_ok]. destruct (c =? LF)%N; [| apply IH].
    rewrite (IH (S k)). apply andb_false_r.
Qed.

Lemma hspace_ok_weaken (s : str) b :
  hspace_ok b s = true -> hspace_ok false s = true.
Proof.
  destruct s as [| c s]; [reflexivity |]. cbn [hspace_ok].
  destruct (is_hspace c); [| tauto].
  intros H. apply andb_true_iff in H as [H1 H2].
  apply andb_true_iff in H1 as [_ H1].
  now rewrite H1, H2.
Qed.

Lemma hspace_ok_sub_hspace (s : str) b : hspace_ok b (sub_hspace b s) = true.
Proof.
  revert b. induction s as [| c s IH]; intros b; cbn [sub_hspace];
    [reflexivity |].
  destruct (is_hspace c) eqn:Eh.
  - destruct b; [apply IH |].
    cbn [hspace_ok]. change (is_hspace SP) with true. cbv iota.
    change (SP =? SP)%N with true. cbn [negb andb]. apply IH.
  - cbn [hspace_ok]. rewrite Eh. apply IH.
Qed.

Lemma hspace_ok_app_l b (x y : str) :
  hspace_ok b (x ++ y) = true -> hspace_ok b x = true.
Proof.
  revert b. induction x as [| c x IH]; intros b; [reflexivity |].
  cbn [app hspace_ok]. destruct (is_hspace c); [| apply IH].
  intros H. apply andb_true_iff in H as [H1 H2].
  apply andb_true_iff. split; [exact H1 | now apply IH].
Qed.

Lemma hspace_ok_app_r b (x y : str) :
  hspace_ok b (x ++ y) = true -> hspace_ok false y = true.
Proof.
  revert b. induction x as [| c x IH]; intros b.
  - apply hspace_ok_weaken.
  - cbn [app hspace_ok]. destruct (is_hspace c); [| apply IH].
    intros H. apply andb_true_iff in H as [_ H2]. now apply IH in H2.
Qed.

(** Two neighbours are never both whitespace other than newlines. *)
Lemma hspace_ok_pair b (l1 l2 : str) x y :
  hspace_ok b (l1 ++ [x; y] ++ l2) = true ->
  ~ (is_hspace x = true /\ is_hspace y = true).
Proof.
  intros H [Hx Hy]. apply hspace_ok_app_r in H.
  cbn [app hspace_ok] in H. rewrite Hx, Hy in H.
  cbn [negb andb] in H.
  now rewrite andb_false_r in H.
Qed.

Lemma hspace_ok_no_CR b (s : str) :
  hspace_ok b s = true -> Forall (fun c => (c =? CR)%N = false) s.
Proof.
  revert b. induction s as [| c s IH]; intros b; [constructor |].
  cbn [hspace_ok]. destruct (is_hspace c) eqn:Eh; intros H.
  - apply andb_true_iff in H as [H1 H2].
    apply andb_true_iff in H1 as [_ H1]. apply N.eqb_eq in H1. subst c.
    constructor; [reflexivity | now apply IH in H2].
  - constructor; [| now apply IH in H].
    destruct (c =? CR)%N eqn:E; [| reflexivity].
    apply N.eqb_eq in E. subst c. discriminate Eh.
Qed.

Lemma lstrip_head (s : str) c : head (lstrip s) = Some c -> isspace c = false.
Proof.
  induction s as [| d s IH]; cbn [lstrip]; [discriminate |].
  destruct (isspace d) eqn:E; [exact IH |].
  cbn. now intros [= <-].
Qed.

Lemma strip_last (s : str) c : last (strip s) = Some c -> isspace c = false.
Proof.
  unfold strip, rstrip. rewrite last_reverse. apply lstrip_head.
Qed.

Lemma strip_head (s : str) c : head (strip s) = Some c -> isspace c = false.
Proof.
  unfold strip. destruct (rstrip_split (lstrip s)) as (w & Hw & _).
  intros H. apply (lstrip_head s). rewrite Hw.
  destruct (rstrip (lstrip s)); [discriminate H | exact H].
Qed.

Lemma normalise_nl_runs_ok (s : str) : nl_runs_ok 0 (normalise s) = true.
Proof.
  unfold normalise.
  destruct (strip_split (sub_hspace false (sub_newlines 0 (sub_cr s))))
    as (w1 & w2 & Hs & _ & _).
  assert (H : nl_runs_ok 0 (sub_hspace false (sub_newlines 0 (sub_cr s))) = true)
    by (apply nl_runs_ok_sub_hspace; [discriminate | apply nl_runs_ok_sub_newlines]).
  rewrite Hs in H. apply nl_runs_ok_app_r in H. now apply nl_runs_ok_app_l in H.
Qed.

Lemma normalise_hspace_ok (s : str) : hspace_ok false (normalise s) = true.
Proof.
  unfold normalise.
  destruct (strip_split (sub_hspace false (sub_newlines 0 (sub_cr s))))
    as (w1 & w2 & Hs & _ & _).
  pose proof (hspace_ok_sub_hspace (sub_newlines 0 (sub_cr s)) false) as H.
  rewrite Hs in H. apply hspace_ok_app_r in H. now apply hspace_ok_app_l in H.
Qed.

(** ** Each step of [normalise] leaves a normalised string as it is *)

Lemma sub_cr_id (s : str) :
  Forall (fun c => (c =? CR)%N = false) s -> sub_cr s = s.
Proof.
  induction 1 as [| c s Hc _ IH]; [reflexivity |].
  cbn. rewrite Hc. f_equal. exact IH.
Qed.

Lemma sub_newlines_id (s : str) k :
  (k <= 2)%nat -> nl_runs_ok k s = true ->
  sub_newlines k s = replicate k LF ++ s.
Proof.
  revert k. induction s as [| c s IH]; intros k Hk;
    cbn [nl_runs_ok sub_newlines].
  - intros _. unfold emit_newlines.
    replace (3 <=? k)%nat with false by (symmetry; apply Nat.leb_gt; lia).
    now rewrite app_nil_r.
  - destruct (c =? LF)%N eqn:E.
    + intros H. apply andb_true_iff in H as [H1 H2].
      apply Nat.ltb_lt in H1. rewrite (IH (S k)); [| lia | exact H2].
      apply N.eqb_eq in E. subst c.
      change (LF :: s) with ([LF] ++ s). rewrite app_assoc. f_equal.
      now rewrite replicate_S_end.
    + intros H. rewrite (IH 0%nat); [| lia | exact H].
      unfold emit_newlines.
      replace (3 <=? k)%nat with false by (symmetry; apply Nat.leb_gt; lia).
      reflexivity.
Qed.

Lemma sub_hspace_id (s : str) b : hspace_ok b s = true -> sub_hspace b s = s.
Proof.
  revert b. induction s as [| c s IH]; intros b; cbn [hspace_ok sub_hspace];
    [reflexivity |].
  destruct (is_hspace c).
  - intros H. apply andb_true_iff in H as [H1 H2].
    apply andb_true_iff in H1 as [Hb Hc].
    apply negb_true_iff in Hb. subst b. apply N.eqb_eq in Hc. subst c.
    f_equal. now apply IH.
  - intros H. f_equal. now apply IH.
Qed.

Lemma lstrip_id (s : str) :
  (forall c, head s = Some c -> isspace c = false) -> lstrip s = s.
Proof.
  destruct s as [| c s]; [reflexivity |]. intros H. cbn [lstrip].
  now rewrite (H c eq_refl).
Qed.

Lemma rstrip_id (s : str) :
  (forall c, last s = Some c -> isspace c = false) -> rstrip s = s.
Proof.
  intros H. unfold rstrip. rewrite lstrip_id.
  - apply reverse_involutive.
  - intros c Hc. apply H. now rewrite <- head_reverse.
Qed.

Lemma strip_id (s : str) :
  (forall c, head s = Some c -> isspace c = false) ->
  (forall c, last s = Some c -> isspace c = false) -> strip s = s.
Proof.
  intros Hh Hl. unfold strip. rewrite (lstrip_id s Hh). now apply rstrip_id.
Qed.

(** C6. [normalise] is idempotent: [normalise(normalise(s)) == normalise(s)]
    for every string [s]. It is a total function of its argument (hence
    deterministic and free of error conditions), and the empty string is
    mapped to the empty string. *)
Theorem normalise_idempotent (s : str) :
  normalise (normalise s) = normalise s /\ normalise [] = [].
Proof.
  split; [| reflexivity].
  pose proof (normalise_nl_runs_ok s) as Hnl.
  pose proof (normalise_hspace_ok s) as Hhs.
  assert (Hh : forall c, head (normalise s) = Some c -> isspace c = false)
    by (intros c; apply strip_head).
  assert (Hl : forall c, last (normalise s) = Some c -> isspace c = false)
    by (intros c; apply strip_last).
  generalize dependent (normalise s). intros t Hnl Hhs Hh Hl.
  unfold normalise.
  rewrite (sub_cr_id t (hspace_ok_no_CR _ _ Hhs)).
  rewrite (sub_newlines_id t 0) by (lia || exact Hnl).
  cbn [replicate app]. rewrite (sub_hspace_id t false Hhs).
  now apply strip_id.
Qed.

(** C7. For every string [s], [normalise(s)] contains no carriage return,
    no run of three or more consecutive newlines, no two neighbouring
    whitespace characters other than newlines (so no run of non-newline
    whitespace longer than one character), and neither begins nor ends
    with a whitespace character. *)
Theorem normalise_shape (s : str) :
  (CR ∉ normalise s)
  /\ (forall l1 l2 : str, normalise s <> l1 ++ [LF; LF; LF] ++ l2)
  /\ (forall (l1 l2 : str) x y,
        normalise s = l1 ++ [x; y] ++ l2 ->
        ~ (is_hspace x = true /\ is_hspace y = true))
  /\ (forall c, head (normalise s) = Some c -> isspace c = false)
  /\ (forall c, last (normalise s) = Some c -> isspace c = false).
Proof.
  split; [| split; [| split; [| split]]].
  - intros Hin.
    pose proof (hspace_ok_no_CR _ _ (normalise_hspace_ok s)) as H.
    rewrite Forall_forall in H. specialize (H CR Hin). discriminate H.
  - intros l1 l2 Heq. pose proof (normalise_nl_runs_ok s) as H.
    rewrite Heq in H. cbn [app] in H.
    rewrite nl_runs_ok_triple in H. discriminate H.
  - intros l1 l2 x y Heq. pose proof (normalise_hspace_ok s) as H.
    rewrite Heq in H. exact (hspace_ok_pair _ _ _ _ _ H).
  - intros c. apply strip_head.
  - intros c. apply strip_last.
Qed.

(** ** The cursor of [_map_norm_to_orig] *)

Lemma getitem_of_nat (s : str) (i : nat) : getitem s (Z.of_nat i) = s !! i.
Proof.
  unfold getitem, len.
  replace (Z.of_nat i <? 0) with false by (symmetry; apply Z.ltb_ge; lia).
  replace (0 <=? Z.of_nat i) with true by (symmetry; apply Z.leb_le; lia).
  rewrite Nat2Z.id. cbn [andb].
  destruct (Z.of_nat i <? Z.of_nat (length s)) eqn:E; [reflexivity |].
  apply Z.ltb_ge in E. symmetry. apply lookup_ge_None. lia.
Qed.

Lemma char_at_of_nat (s : str) (i : nat) : char_at s (Z.of_nat i) = s !! i.
Proof.
  unfold char_at.
  replace (Z.of_nat i <? 0) with false by (symmetry; apply Z.ltb_ge; lia).
  now rewrite Nat2Z.id.
Qed.

Lemma char_at_Some (s : str) k c :
  char_at s k = Some c -> exists i : nat, k = Z.of_nat i /\ s !! i = Some c.
Proof.
  unfold char_at. destruct (k <? 0) eqn:E; [discriminate |].
  apply Z.ltb_ge in E. intros H. exists (Z.to_nat k). split; [lia | exact H].
Qed.

(** One turn of the [while] loop. *)
Lemma skip_space_step fuel (original : str) (i : nat) :
  skip_space (S fuel) original (Z.of_nat i) =
    match original !! i with
    | None => None
    | Some ch =>
        if isspace ch then skip_space fuel original (Z.of_nat (S i))
        else Some (Z.of_nat i)
    end.
Proof.
  cbn [skip_space]. rewrite getitem_of_nat.
  replace (Z.of_nat i + 1) with (Z.of_nat (S i)) by lia. reflexivity.
Qed.

(** The fuel is never what stops the loop: with as many turns allowed as
    characters are left, the result does not depend on the allowance. *)
Lemma skip_space_fuel (original : str) fuel1 fuel2 (i : nat) :
  (length original <= fuel1 + i)%nat -> (length original <= fuel2 + i)%nat ->
  skip_space fuel1 original (Z.of_nat i) = skip_space fuel2 original (Z.of_nat i).
Proof.
  revert fuel2 i. induction fuel1 as [| fuel1 IH]; intros fuel2 i H1 H2.
  - assert (Hn : original !! i = None) by (apply lookup_ge_None; lia).
    destruct fuel2; cbn [skip_space]; rewrite getitem_of_nat, Hn; reflexivity.
  - destruct fuel2 as [| fuel2].
    + assert (Hn : original !! i = None) by (apply lookup_ge_None; lia).
      cbn [skip_space]. rewrite getitem_of_nat, Hn. reflexivity.
    + rewrite !skip_space_step. destruct (original !! i) as [ch |]; [| reflexivity].
      destruct (isspace ch); [| reflexivity]. apply IH; lia.
Qed.

(** The loop as the source writes it. *)
Lemma skip_space_unfold (original : str) (i : nat) :
  skip_space (length original) original (Z.of_nat i) =
    match original !! i with
    | None => None
    | Some ch =>
        if isspace ch
        then skip_space (length original) original (Z.of_nat (S i))
        else Some (Z.of_nat i)
    end.
Proof.
  destruct (original !! i) as [ch |] eqn:E.
  - pose proof (lookup_lt_Some _ _ _ E) as Hlt.
    rewrite (skip_space_fuel original (length original) (S (length original)) i)
      by lia.
    rewrite skip_space_step, E. reflexivity.
  - destruct (length original); cbn [skip_space];
      rewrite getitem_of_nat, E; reflexivity.
Qed.

(** The cursor stops on the next character that is not whitespace. *)
Lemma skip_space_spec (original : str) (i : nat) c (t : str) :
  remove_space (drop i original) = c :: t ->
  exists j : nat,
    (i <= j)%nat
    /\ skip_space (length original) original (Z.of_nat i) = Some (Z.of_nat j)
    /\ original !! j = Some c /\ isspace c = false
    /\ remove_space (drop (S j) original) = t.
Proof.
  remember (length original - i)%nat as d eqn:Hd.
  revert i Hd. induction d as [| d IH]; intros i Hd Hrs.
  - rewrite drop_ge in Hrs by lia. discriminate Hrs.
  - destruct (original !! i) as [ch |] eqn:E.
    2:{ apply lookup_ge_None in E. lia. }
    rewrite (drop_S _ _ _ E) in Hrs. cbn [remove_space List.filter] in Hrs.
    rewrite skip_space_unfold, E.
    destruct (isspace ch) eqn:Ech; cbn [negb] in Hrs.
    + destruct (IH (S i)) as (j & Hle & Hsk & Hj & Hc & Hrest);
        [lia | exact Hrs |].
      exists j. repeat split; try assumption. lia.
    + injection Hrs as -> Ht. exists i. repeat split; auto.
Qed.

(** When the loop raises, the cursor has run off the end of [original]:
    only whitespace was left. *)
Lemma skip_space_fault (original : str) (i : nat) :
  skip_space (length original) original (Z.of_nat i) = None ->
  remove_space (drop i original) = [].
Proof.
  intros H. destruct (remove_space (drop i original)) as [| c t] eqn:E;
    [reflexivity |].
  destruct (skip_space_spec original i c t E) as (j & _ & Hj & _).
  congruence.
Qed.

(** ** The dictionary built by [_map_norm_to_orig] *)

(** The loop from the state it has after [n] characters of [normalised],
    the cursor standing at [i]: it ends without raising, touches only the
    keys of the characters of [rest] that are not whitespace, sends each to
    the offset of an equal character of [original] at or after the cursor,
    and sends later keys to later offsets. *)
Lemma map_loop_spec (original : str) (rest : str) :
  forall (n i : nat) (cm : gmap Z Z),
  remove_space (drop i original) = remove_space rest ->
  exists cm' : gmap Z Z,
    map_loop original rest (Z.of_nat n) cm (Z.of_nat i) = Some cm'
    /\ (forall k : Z,
          k < Z.of_nat n \/ Z.of_nat (n + length rest) <= k ->
          cm' !! k = cm !! k)
    /\ (forall (m : nat) c,
          rest !! m = Some c -> isspace c = true ->
          cm' !! Z.of_nat (n + m) = cm !! Z.of_nat (n + m))
    /\ (forall (m : nat) c,
          rest !! m = Some c -> isspace c = false ->
          exists j : nat,
            cm' !! Z.of_nat (n + m) = Some (Z.of_nat j)
            /\ (i <= j)%nat /\ original !! j = Some c
            /\ remove_space (drop j original) = remove_space (drop m rest))
    /\ (forall (m1 m2 : nat) c1 c2 v1 v2,
          (m1 < m2)%nat ->
          rest !! m1 = Some c1 -> isspace c1 = false ->
          rest !! m2 = Some c2 -> isspace c2 = false ->
          cm' !! Z.of_nat (n + m1) = Some v1 ->
          cm' !! Z.of_nat (n + m2) = Some v2 -> v1 < v2).
Proof.
  induction rest as [| ch rest IH]; intros n i cm Hrs.
  - exists cm. split; [reflexivity |].
    repeat split; intros; try reflexivity; discriminate.
  - cbn [map_loop]. cbn [remove_space List.filter] in Hrs.
    replace (Z.of_nat n + 1) with (Z.of_nat (S n)) by lia.
    destruct (isspace ch) eqn:Ech; cbn [negb] in Hrs.
    + destruct (IH (S n) i cm Hrs) as (cm' & Hrun & Ha & Hb & Hc & Hd).
      exists cm'. split; [exact Hrun |]. cbn [length]. repeat split.
      * intros k Hk. apply Ha. lia.
      * intros [| m] c Hm Hsp.
        -- apply Ha. lia.
        -- replace (n + S m)%nat with (S n + m)%nat by lia. now apply (Hb m c).
      * intros [| m] c Hm Hsp.
        -- injection Hm as <-. congruence.
        -- replace (n + S m)%nat with (S n + m)%nat by lia. now apply (Hc m c).
      * intros [| m1] [| m2] c1 c2 v1 v2 Hlt H1 Hs1 H2 Hs2; try lia.
        -- injection H1 as <-. congruence.
        -- replace (n + S m1)%nat with (S n + m1)%nat by lia.
           replace (n + S m2)%nat with (S n + m2)%nat by lia.
           apply (Hd m1 m2 c1 c2); auto. lia.
    + destruct (skip_space_spec original i ch _ Hrs)
        as (j & Hij & Hsk & Hj & _ & Hrest).
      rewrite Hsk. replace (Z.of_nat j + 1) with (Z.of_nat (S j)) by lia.
      destruct (IH (S n) (S j) (<[Z.of_nat n := Z.of_nat j]> cm) Hrest)
        as (cm' & Hrun & Ha & Hb & Hc & Hd).
      assert (Hn : cm' !! Z.of_nat n = Some (Z.of_nat j)).
      { rewrite Ha by lia. apply lookup_insert_eq. }
      exists cm'. split; [exact Hrun |]. cbn [length]. repeat split.
      * intros k Hk. rewrite Ha by lia. apply lookup_insert_ne. lia.
      * intros [| m] c Hm Hsp.
        -- injection Hm as <-. congruence.
        -- replace (n + S m)%nat with (S n + m)%nat by lia.
           rewrite (Hb m c Hm Hsp). apply lookup_insert_ne. lia.
      * intros [| m] c Hm Hsp.
        -- injection Hm as <-. exists j. rewrite Nat.add_0_r.
           repeat split; auto.
           rewrite (drop_S _ _ _ Hj). cbn [drop remove_space List.filter].
           rewrite Ech. cbn [negb]. f_equal. exact Hrest.
        -- replace (n + S m)%nat with (S n + m)%nat by lia.
           destruct (Hc m c Hm Hsp) as (j' & Hl & Hle & Ho & Hsuf).
           exists j'. repeat split; auto. lia.
      * intros [| m1] [| m2] c1 c2 v1 v2 Hlt H1 Hs1 H2 Hs2; try lia.
        -- rewrite Nat.add_0_r, Hn. intros [= <-].
           replace (n + S m2)%nat with (S n + m2)%nat by lia.
           destruct (Hc m2 c2 H2 Hs2) as (j' & Hl & Hle & _).
           rewrite Hl. intros [= <-]. lia.
        -- replace (n + S m1)%nat with (S n + m1)%nat by lia.
           replace (n + S m2)%nat with (S n + m2)%nat by lia.
           apply (Hd m1 m2 c1 c2); auto. lia.
Qed.

(** What [_map_norm_to_orig] returns on two strings that agree once their
    whitespace is removed. *)
Lemma map_norm_to_orig_spec (original normalised : str) :
  remove_space original = remove_space normalised ->
  exists char_map : gmap Z Z,
    _map_norm_to_orig original normalised = Some char_map
    /\ (forall k : Z,
          is_Some (char_map !! k) <->
          exists c, char_at normalised k = Some c /\ isspace c = false)
    /\ (forall k1 k2 v1 v2 : Z,
          char_map !! k1 = Some v1 -> char_map !! k2 = Some v2 ->
          k1 < k2 -> v1 < v2)
    /\ (forall k v : Z,
          char_map !! k = Some v ->
          exists c, char_at normalised k = Some c
                    /\ char_at original v = Some c /\ isspace c = false)
    /\ (forall k v : Z,
          char_map !! k = Some v ->
          exists m j : nat,
            k = Z.of_nat m /\ v = Z.of_nat j
            /\ remove_space (drop j original) = remove_space (drop m normalised)).
Proof.
  intros Hrs.
  destruct (map_loop_spec original normalised 0 0 ∅ Hrs)
    as (cm & Hrun & Ha & Hb & Hc & Hd).
  cbn [Nat.add] in *.
  assert (Hkey : forall k v, cm !! k = Some v ->
            exists (m : nat) c, k = Z.of_nat m /\ normalised !! m = Some c
                                /\ isspace c = false).
  { intros k v Hk.
    destruct (Z.ltb_spec k 0) as [Hneg | Hpos].
    { rewrite Ha in Hk by (left; exact Hneg). now rewrite lookup_empty in Hk. }
    destruct (normalised !! Z.to_nat k) as [c |] eqn:Ec.
    - exists (Z.to_nat k), c. split; [lia |]. split; [exact Ec |].
      destruct (isspace c) eqn:Esp; [| reflexivity].
      pose proof (Hb _ _ Ec Esp) as Hb'. rewrite Z2Nat.id in Hb' by lia.
      rewrite Hb', lookup_empty in Hk. discriminate Hk.
    - apply lookup_ge_None in Ec. rewrite Ha in Hk by lia.
      now rewrite lookup_empty in Hk. }
  exists cm. split; [exact Hrun |]. repeat split.
  - intros [v Hv]. destruct (Hkey k v Hv) as (m & c & -> & Hm & Hsp).
    exists c. now rewrite char_at_of_nat.
  - intros (c & Hc' & Hsp). apply char_at_Some in Hc' as (m & -> & Hm).
    destruct (Hc m c Hm Hsp) as (j & Hj & _). now exists (Z.of_nat j).
  - intros k1 k2 v1 v2 H1 H2 Hlt.
    destruct (Hkey k1 v1 H1) as (m1 & c1 & -> & Hm1 & Hs1).
    destruct (Hkey k2 v2 H2) as (m2 & c2 & -> & Hm2 & Hs2).
    apply (Hd m1 m2 c1 c2 v1 v2); auto. lia.
  - intros k v Hk. destruct (Hkey k v Hk) as (m & c & -> & Hm & Hsp).
    destruct (Hc m c Hm Hsp) as (j & Hj & _ & Ho & _).
    rewrite Hk in Hj. injection Hj as ->.
    exists c. now rewrite !char_at_of_nat.
  - intros k v Hk. destruct (Hkey k v Hk) as (m & c & -> & Hm & Hsp).
    destruct (Hc m c Hm Hsp) as (j & Hj & _ & _ & Hsuf).
    rewrite Hk in Hj. injection Hj as ->. now exists m, j.
Qed.

(** C4. When [original] and [normalised] are character-identical once all
    whitespace is removed from each, [_map_norm_to_orig(original,
    normalised)] returns a dictionary whose keys are exactly the offsets of
    the non-whitespace characters of [normalised], whose values increase
    strictly with the key, and each of whose values is the offset of a
    non-whitespace character of [original] equal to the character of
    [normalised] at the key. *)
Theorem map_norm_to_orig_invariant (original normalised : str) :
  remove_space original = remove_space normalised ->
  exists char_map : gmap Z Z,
    _map_norm_to_orig original normalised = Some char_map
    /\ (forall k : Z,
          is_Some (char_map !! k) <->
          exists c, char_at normalised k = Some c /\ isspace c = false)
    /\ (forall k1 k2 v1 v2 : Z,
          char_map !! k1 = Some v1 -> char_map !! k2 = Some v2 ->
          k1 < k2 -> v1 < v2)
    /\ (forall k v : Z,
          char_map !! k = Some v ->
          exists c, char_at normalised k = Some c
                    /\ char_at original v = Some c /\ isspace c = false).
Proof.
  intros H.
  destruct (map_norm_to_orig_spec _ _ H) as (cm & Hcm & Hdom & Hmono & Hval & _).
  now exists cm.
Qed.

Lemma map_norm_to_orig_invariant_witness :
  exists char_map : gmap Z Z,
    _map_norm_to_orig (py " a  b") (py "a b") = Some char_map
    /\ (forall k : Z,
          is_Some (char_map !! k) <->
          exists c, char_at (py "a b") k = Some c /\ isspace c = false)
    /\ (forall k1 k2 v1 v2 : Z,
          char_map !! k1 = Some v1 -> char_map !! k2 = Some v2 ->
          k1 < k2 -> v1 < v2)
    /\ (forall k v : Z,
          char_map !! k = Some v ->
          exists c, char_at (py "a b") k = Some c
                    /\ char_at (py " a  b") v = Some c /\ isspace c = false).
Proof. apply (map_norm_to_orig_invariant (py " a  b") (py "a b")). reflexivity. Defined.

(** C5. Under the whitespace-parity precondition (the two strings are
    character-identical once all whitespace is removed from each),
    [_map_norm_to_orig] raises no [IndexError]: every read
    [original[orig_idx]] is in range and the call returns a dictionary. In
    particular [_map_norm_to_orig(text, normalise(text))] returns for every
    [text]. *)
Theorem map_norm_to_orig_no_fault (original normalised text : str) :
  (remove_space original = remove_space normalised ->
   is_Some (_map_norm_to_orig original normalised))
  /\ is_Some (_map_norm_to_orig text (normalise text)).
Proof.
  split.
  - intros H. destruct (map_norm_to_orig_spec _ _ H) as (cm & Hcm & _).
    now exists cm.
  - destruct (map_norm_to_orig_spec text (normalise text)) as (cm & Hcm & _).
    + symmetry. apply remove_space_normalise.
    + now exists cm.
Qed.

Lemma map_norm_to_orig_no_fault_witness :
  is_Some (_map_norm_to_orig (py " a  b") (py "a b")).
Proof.
  apply (map_norm_to_orig_no_fault (py " a  b") (py "a b") []). reflexivity.
Defined.

(** ** Slices *)

Lemma slice_of_nat (s : str) (lo n : nat) :
  slice s (Z.of_nat lo) (Z.of_nat lo + Z.of_nat n) = take n (drop lo s).
Proof.
  unfold slice, clip, len.
  replace (Z.of_nat lo <? 0) with false by (symmetry; apply Z.ltb_ge; lia).
  replace (Z.of_nat lo + Z.of_nat n <? 0) with false
    by (symmetry; apply Z.ltb_ge; lia).
  destruct (Nat.le_gt_cases (length s) lo) as [Hge | Hlt].
  - rewrite !drop_ge by lia. now rewrite !take_nil.
  - replace (Z.to_nat (Z.min (Z.of_nat lo) (Z.of_nat (length s)))) with lo by lia.
    destruct (Nat.le_gt_cases (lo + n) (length s)) as [Hin | Hout].
    + f_equal. lia.
    + rewrite !take_ge; [reflexivity | |]; rewrite length_drop; lia.
Qed.

(** At an offset that is not negative, the test of the Occurrence Selector
    reads the two characters that follow. *)
Lemma slice_blank_line (s : str) (e : nat) :
  slice s (Z.of_nat e) (Z.of_nat e + 2) = blank_line <->
  s !! e = Some LF /\ s !! S e = Some LF.
Proof.
  change 2 with (Z.of_nat 2). rewrite slice_of_nat. unfold blank_line.
  assert (H0 : s !! e = drop e s !! 0%nat)
    by (rewrite lookup_drop; f_equal; lia).
  assert (H1 : s !! S e = drop e s !! 1%nat)
    by (rewrite lookup_drop; f_equal; lia).
  rewrite H0, H1.
  destruct (drop e s) as [| a [| b t]]; cbn.
  - split; [discriminate | intros [H _]; discriminate H].
  - split; [discriminate | intros [_ H]; discriminate H].
  - split.
    + now intros [= -> ->].
    + now intros [[= ->] [= ->]].
Qed.

(** ** [_pick_best_occurrence] *)

Lemma followed_by_blank_line_eqb (text : str) anchor_len p :
  str_eqb (slice text (p + anchor_len) (p + anchor_len + 2)) blank_line = true
  <-> followed_by_blank_line text anchor_len p.
Proof. unfold str_eqb, followed_by_blank_line. apply bool_decide_eq_true. Qed.

(** The loop returns the first position that passes the test, if any. *)
Lemma pick_loop_spec (positions : list Z) (text : str) anchor_len :
  match pick_loop positions text anchor_len with
  | Some p =>
      exists before after,
        positions = before ++ p :: after
        /\ followed_by_blank_line text anchor_len p
        /\ Forall (fun q => ~ followed_by_blank_line text anchor_len q) before
  | None =>
      Forall (fun q => ~ followed_by_blank_line text anchor_len q) positions
  end.
Proof.
  induction positions as [| idx positions IH]; cbn [pick_loop]; [constructor |].
  cbv zeta.
  destruct (str_eqb _ _) eqn:E.
  - exists [], positions. split; [reflexivity |]. split; [| constructor].
    now apply followed_by_blank_line_eqb.
  - assert (Hidx : ~ followed_by_blank_line text anchor_len idx).
    { intros H. apply followed_by_blank_line_eqb in H. congruence. }
    destruct (pick_loop positions text anchor_len) as [p |].
    + destruct IH as (before & after & -> & Hp & Hb).
      exists (idx :: before), after. split; [reflexivity |].
      split; [exact Hp | now constructor].
    + now constructor.
Qed.

Lemma pick_best_occurrence_spec (positions : list Z) (text : str) anchor_len :
  positions <> [] ->
  exists p,
    _pick_best_occurrence positions text anchor_len = Some p
    /\ In p positions
    /\ ((exists before after,
           positions = before ++ p :: after
           /\ followed_by_blank_line text anchor_len p
           /\ Forall (fun q => ~ followed_by_blank_line text anchor_len q) before)
        \/ (Forall (fun q => ~ followed_by_blank_line text anchor_len q) positions
            /\ head positions = Some p)).
Proof.
  intros Hne. unfold _pick_best_occurrence.
  pose proof (pick_loop_spec positions text anchor_len) as H.
  destruct (pick_loop positions text anchor_len) as [p |].
  - exists p. split; [reflexivity |].
    destruct H as (before & after & Heq & Hp & Hb). split.
    + rewrite Heq. apply in_or_app. right. now left.
    + left. now exists before, after.
  - destruct positions as [| p positions]; [congruence |].
    exists p. split; [reflexivity |]. split; [now left |]. now right.
Qed.

(** C1. For every non-empty list of positions, every text and every anchor
    length, [_pick_best_occurrence] returns a position [p] of the list: the
    first one, in the order of the list, for which
    [text[p+anchor_len : p+anchor_len+2]] is a newline followed by a
    newline, and the first position of the list when none qualifies. It
    raises nothing and has no "not found" result. *)
Theorem pick_best_occurrence_first (positions : list Z) (text : str)
    (anchor_len : Z) :
  positions <> [] ->
  exists p,
    _pick_best_occurrence positions text anchor_len = Some p
    /\ In p positions
    /\ ((exists before after,
           positions = before ++ p :: after
           /\ followed_by_blank_line text anchor_len p
           /\ Forall (fun q => ~ followed_by_blank_line text anchor_len q) before)
        \/ (Forall (fun q => ~ followed_by_blank_line text anchor_len q) positions
            /\ head positions = Some p)).
Proof. apply pick_best_occurrence_spec. Qed.

Lemma pick_best_occurrence_first_witness :
  exists p,
    _pick_best_occurrence [0; 27] (py "ab" ++ [LF; LF] ++ py "c") 2 = Some p
    /\ In p [0; 27]
    /\ ((exists before after,
           [0; 27] = before ++ p :: after
           /\ followed_by_blank_line (py "ab" ++ [LF; LF] ++ py "c") 2 p
           /\ Forall (fun q => ~ followed_by_blank_line
                                  (py "ab" ++ [LF; LF] ++ py "c") 2 q) before)
        \/ (Forall (fun q => ~ followed_by_blank_line
                                (py "ab" ++ [LF; LF] ++ py "c") 2 q) [0; 27]
            /\ head [0; 27] = Some p)).
Proof.
  apply (pick_best_occurrence_first [0; 27] (py "ab" ++ [LF; LF] ++ py "c") 2).
  discriminate.
Defined.

(** ** Searching: [re.finditer] on a literal, and [str.rfind] *)

Lemma startswith_spec (pat s : str) :
  startswith pat s = true <-> exists after, s = pat ++ after.
Proof.
  revert s. induction pat as [| p pat IH]; intros s; cbn [startswith].
  - split; [intros _; now exists s | reflexivity].
  - destruct s as [| c s].
    + split; [discriminate | intros [after H]; discriminate H].
    + rewrite andb_true_iff, N.eqb_eq, IH. split.
      * intros [-> [after ->]]. now exists after.
      * intros [after [= -> ->]]. split; [reflexivity | now exists after].
Qed.

(** An occurrence, read on the part of the string that starts at it. *)
Lemma occurs_at_drop (pat s : str) (k : Z) :
  occurs_at pat s k <->
  exists m : nat,
    k = Z.of_nat m /\ (m <= length s)%nat /\ startswith pat (drop m s) = true.
Proof.
  unfold occurs_at, len. split.
  - intros (before & after & -> & <-). exists (length before).
    split; [reflexivity |]. split.
    + rewrite length_app. lia.
    + rewrite drop_app_length. apply startswith_spec. now exists after.
  - intros (m & -> & Hm & Hsw). apply startswith_spec in Hsw as [after Hafter].
    exists (take m s), after. split.
    + rewrite <- Hafter. now rewrite take_drop.
    + rewrite length_take. lia.
Qed.

Lemma finditer_from_sound (pat s : str) pos skip k :
  In k (finditer_from pat s pos skip) ->
  exists m : nat,
    k = pos + Z.of_nat m /\ (m <= length s)%nat
    /\ startswith pat (drop m s) = true.
Proof.
  revert pos skip. induction s as [| c s IH]; intros pos skip;
    cbn [finditer_from].
  - destruct pat; [| intros []].
    intros [<- | []]. exists 0%nat. repeat split; [lia | reflexivity].
  - assert (Hnext : forall skip',
              In k (finditer_from pat s (pos + 1) skip') ->
              exists m : nat,
                k = pos + Z.of_nat m /\ (m <= length (c :: s))%nat
                /\ startswith pat (drop m (c :: s)) = true).
    { intros skip' H. destruct (IH _ _ H) as (m & -> & Hm & Hsw).
      exists (S m). cbn [length drop]. repeat split; [lia | lia | exact Hsw]. }
    destruct skip as [| skip]; [| apply Hnext].
    destruct (startswith pat (c :: s)) eqn:E; [| apply Hnext].
    intros [<- | H]; [| now apply Hnext in H].
    exists 0%nat. cbn [length drop]. repeat split; [lia | lia | exact E].
Qed.

Lemma finditer_from_complete (pat s : str) pos skip (m : nat) :
  (skip <= m)%nat -> (m <= length s)%nat ->
  startswith pat (drop m s) = true ->
  finditer_from pat s pos skip <> [].
Proof.
  revert pos skip m. induction s as [| c s IH]; intros pos skip m Hsk Hm Hsw;
    cbn [finditer_from].
  - cbn [length] in Hm. replace m with 0%nat in Hsw by lia.
    destruct pat; [discriminate | discriminate Hsw].
  - destruct skip as [| skip].
    + destruct (startswith pat (c :: s)) eqn:E; [discriminate |].
      destruct m as [| m]; [cbn [drop] in Hsw; congruence |].
      apply (IH _ _ m); [lia | cbn [length] in Hm; lia | exact Hsw].
    + destruct m as [| m]; [lia |].
      apply (IH _ _ m); [lia | cbn [length] in Hm; lia | exact Hsw].
Qed.

Lemma finditer_starts_occurs (pat s : str) k :
  In k (finditer_starts pat s) -> occurs_at pat s k.
Proof.
  intros H. apply finditer_from_sound in H as (m & -> & Hm & Hsw).
  apply occurs_at_drop. exists m. split; [lia | split; [exact Hm | exact Hsw]].
Qed.

Lemma finditer_starts_found (pat s : str) k :
  occurs_at pat s k -> finditer_starts pat s <> [].
Proof.
  intros H. apply occurs_at_drop in H as (m & _ & Hm & Hsw).
  apply (finditer_from_complete pat s 0 0 m); [lia | exact Hm | exact Hsw].
Qed.

Lemma finditer_starts_nil (pat s : str) :
  finditer_starts pat s = [] <-> forall k, ~ occurs_at pat s k.
Proof.
  split.
  - intros Hnil k Hk. now apply finditer_starts_found in Hk.
  - intros Hno. destruct (finditer_starts pat s) as [| k l] eqn:E; [reflexivity |].
    exfalso. apply (Hno k). apply finditer_starts_occurs. rewrite E. now left.
Qed.

Lemma rfind_from_spec (pat s : str) pos :
  0 <= pos ->
  (rfind_from pat s pos = -1
   /\ forall m : nat, (m <= length s)%nat -> startswith pat (drop m s) = false)
  \/ (exists m : nat,
        rfind_from pat s pos = pos + Z.of_nat m
        /\ (m <= length s)%nat /\ startswith pat (drop m s) = true
        /\ forall m' : nat,
             (m' <= length s)%nat -> startswith pat (drop m' s) = true ->
             (m' <= m)%nat).
Proof.
  revert pos. induction s as [| c s IH]; intros pos Hpos; cbn [rfind_from].
  - destruct pat as [| p pat].
    + right. exists 0%nat. repeat split; [lia | reflexivity |].
      intros m' Hm' _. exact Hm'.
    + left. split; [reflexivity |]. intros m _. now rewrite drop_nil.
  - cbv zeta. destruct (IH (pos + 1)) as [[Hr Hno] | (m & Hr & Hm & Hsw & Hmax)];
      [lia | |].
    + rewrite Hr, Z.eqb_refl. destruct (startswith pat (c :: s)) eqn:E.
      * right. exists 0%nat. repeat split; [lia | cbn [length]; lia | exact E |].
        intros [| m'] Hm' Hsw'; [lia |]. cbn [length drop] in *.
        rewrite Hno in Hsw' by lia. discriminate Hsw'.
      * left. split; [reflexivity |]. intros [| m] Hm; [exact E |].
        cbn [length drop] in *. apply Hno. lia.
    + rewrite Hr.
      replace (pos + 1 + Z.of_nat m =? -1) with false
        by (symmetry; apply Z.eqb_neq; lia).
      right. exists (S m). cbn [length drop].
      repeat split; [lia | lia | exact Hsw |].
      intros [| m'] Hm' Hsw'; [lia |]. cbn [length drop] in *.
      apply le_n_S. apply Hmax; [lia | exact Hsw'].
Qed.

Lemma rfind_none (pat s : str) :
  rfind s pat = -1 -> forall k, ~ occurs_at pat s k.
Proof.
  unfold rfind. intros Hr k Hk.
  apply occurs_at_drop in Hk as (m & _ & Hm & Hsw).
  destruct (rfind_from_spec pat s 0) as [[_ Hno] | (m' & Hr' & _)]; [lia | |].
  - rewrite Hno in Hsw by exact Hm. discriminate Hsw.
  - lia.
Qed.

Lemma rfind_last (pat s : str) :
  rfind s pat <> -1 -> last_occurrence pat s (rfind s pat).
Proof.
  unfold rfind. intros Hr.
  destruct (rfind_from_spec pat s 0) as [[Hr' _] | (m & Hr' & Hm & Hsw & Hmax)];
    [lia | congruence |].
  rewrite Hr'. split.
  - apply occurs_at_drop. exists m. split; [lia | split; [exact Hm | exact Hsw]].
  - intros k' Hk'. apply occurs_at_drop in Hk' as (m' & -> & Hm' & Hsw').
    specialize (Hmax m' Hm' Hsw'). lia.
Qed.

Lemma occurs_at_nonneg (pat s : str) k : occurs_at pat s k -> 0 <= k.
Proof. intros (before & after & _ & <-). unfold len. lia. Qed.

Lemma rfind_of_last (pat s : str) k :
  last_occurrence pat s k -> rfind s pat = k.
Proof.
  intros [Hocc Hmax].
  destruct (Z.eq_dec (rfind s pat) (-1)) as [Hr | Hr].
  - exfalso. exact (rfind_none pat s Hr k Hocc).
  - destruct (rfind_last pat s Hr) as [Hocc' Hmax'].
    specialize (Hmax _ Hocc'). specialize (Hmax' _ Hocc). lia.
Qed.

(** ** [locate_anchor] *)

(** The Position Map of a call of [locate_anchor] is always built. *)
Lemma position_map_built (text : str) :
  exists char_map : gmap Z Z,
    _map_norm_to_orig text (normalise text) = Some char_map
    /\ (forall k : Z,
          is_Some (char_map !! k) <->
          exists c, char_at (normalise text) k = Some c /\ isspace c = false)
    /\ (forall k v : Z,
          char_map !! k = Some v ->
          exists c, char_at (normalise text) k = Some c
                    /\ char_at text v = Some c /\ isspace c = false)
    /\ (forall k v : Z,
          char_map !! k = Some v ->
          exists m j : nat,
            k = Z.of_nat m /\ v = Z.of_nat j
            /\ remove_space (drop j text) = remove_space (drop m (normalise text))).
Proof.
  destruct (map_norm_to_orig_spec text (normalise text))
    as (cm & Hcm & Hdom & _ & Hval & Hsuf).
  - symmetry. apply remove_space_normalise.
  - now exists cm.
Qed.

(** An occurrence of a normalised, non-empty marker starts on a character
    that is not whitespace. *)
Lemma occurs_at_normalised_head (x s : str) k :
  normalise x <> [] -> occurs_at (normalise x) s k ->
  exists c, char_at s k = Some c /\ isspace c = false
            /\ head (normalise x) = Some c.
Proof.
  intros Hne (before & after & -> & <-).
  destruct (normalise x) as [| c t] eqn:E; [congruence |].
  exists c. unfold len. rewrite char_at_of_nat.
  split; [| split; [| reflexivity]].
  - rewrite lookup_app_r by lia. now rewrite Nat.sub_diag.
  - apply (strip_head (sub_hspace false (sub_newlines 0 (sub_cr x)))).
    fold (normalise x). now rewrite E.
Qed.

Lemma last_cons_is_Some (p : Z) (ps : list Z) :
  exists q, last (p :: ps) = Some q /\ In q (p :: ps).
Proof.
  revert p. induction ps as [| p' ps IH]; intros p.
  - exists p. split; [reflexivity | now left].
  - destruct (IH p') as (q & Hq & Hin). exists q. split; [exact Hq | now right].
Qed.

(** Strategy 2 always returns: the sentinel, or an offset taken from the
    Position Map. *)
Lemma single_line_fallback_cases (norm_text marker : str) is_start
    (cm : gmap Z Z) :
  exists o l,
    single_line_fallback norm_text marker is_start cm = Some (o, l)
    /\ ((o = -1 /\ l = 0) \/ exists k, cm !! k = Some o).
Proof.
  unfold single_line_fallback.
  destruct (if is_start then head _ else last _) as [line |];
    [| exists (-1), 0; auto].
  destruct (finditer_starts (normalise line) norm_text) as [| p ps] eqn:E;
    [exists (-1), 0; auto |].
  assert (Hbest : exists best,
            (if is_start
             then _pick_best_occurrence (p :: ps) norm_text (len (normalise line))
             else last (p :: ps)) = Some best).
  { destruct is_start.
    - destruct (pick_best_occurrence_spec (p :: ps) norm_text
                  (len (normalise line))) as (best & Hbest & _);
        [discriminate | now exists best].
    - destruct (last_cons_is_Some p ps) as (q & Hq & _). now exists q. }
  destruct Hbest as [best ->]. cbn [mbind option_bind].
  destruct (cm !! best) as [o |] eqn:Eo.
  - exists o, (len (normalise line)). split; [reflexivity |].
    right. now exists best.
  - exists (-1), 0. auto.
Qed.

(** [locate_anchor] always returns: the sentinel [(-1, 0)], or an offset
    taken from the Position Map. *)
Lemma locate_anchor_cases (text marker : str) is_start :
  exists (cm : gmap Z Z) o l,
    _map_norm_to_orig text (normalise text) = Some cm
    /\ locate_anchor text marker is_start = Some (o, l)
    /\ ((o = -1 /\ l = 0) \/ exists k, cm !! k = Some o).
Proof.
  destruct (position_map_built text) as (cm & Hcm & _).
  exists cm. unfold locate_anchor. rewrite Hcm. cbn [mbind option_bind]. cbv zeta.
  destruct (single_line_fallback_cases (normalise text) marker is_start cm)
    as (o2 & l2 & Hfb & Hcase).
  rewrite Hfb.
  destruct is_start.
  - destruct (finditer_starts (normalise marker) (normalise text))
      as [| p ps] eqn:E; [now exists o2, l2 |].
    destruct (pick_best_occurrence_spec (p :: ps) (normalise text)
                (len (normalise marker))) as (best & -> & _); [discriminate |].
    cbn [mbind option_bind].
    destruct (cm !! best) as [o |] eqn:Eo; [| now exists o2, l2].
    exists o, (len marker). repeat split; auto. right. now exists best.
  - destruct (negb _); [| now exists o2, l2].
    destruct (cm !! rfind (normalise text) (normalise marker)) as [o |] eqn:Eo;
      [| now exists o2, l2].
    exists o, (len marker). repeat split; auto. right. eexists. exact Eo.
Qed.

(** C10. Whenever [locate_anchor(text, marker, is_start)] returns a pair
    [(o, l)] with [o] different from [-1], the offset [o] is an index of
    [text] ([0 <= o < len(text)]) and [text[o]] is not a whitespace
    character. *)
Theorem locate_anchor_offset_valid (text marker : str) (is_start : bool)
    (o l : Z) :
  locate_anchor text marker is_start = Some (o, l) ->
  o <> -1 ->
  0 <= o < len text
  /\ exists c, getitem text o = Some c /\ isspace c = false.
Proof.
  intros Hres Ho.
  destruct (locate_anchor_cases text marker is_start)
    as (cm & o' & l' & Hcm & Hres' & Hcase).
  rewrite Hres in Hres'. injection Hres' as <- <-.
  destruct Hcase as [[Hneg _] | [k Hk]]; [congruence |].
  destruct (position_map_built text) as (cm' & Hcm' & _ & Hval & _).
  rewrite Hcm in Hcm'. injection Hcm' as <-.
  destruct (Hval k o Hk) as (c & _ & Hc & Hsp).
  apply char_at_Some in Hc as (j & -> & Hj).
  pose proof (lookup_lt_Some _ _ _ Hj) as Hlt.
  split; [unfold len; lia |].
  exists c. now rewrite getitem_of_nat.
Qed.

Lemma locate_anchor_offset_valid_witness :
  0 <= 27 < len (py "CHAPTER ONE continues here" ++ [LF] ++ py "CHAPTER ONE"
                   ++ [LF; LF] ++ py "It was a dark night")
  /\ exists c,
       getitem (py "CHAPTER ONE continues here" ++ [LF] ++ py "CHAPTER ONE"
                  ++ [LF; LF] ++ py "It was a dark night") 27 = Some c
       /\ isspace c = false.
Proof.
  apply (locate_anchor_offset_valid _ (py "CHAPTER ONE") true 27 11).
  - vm_compute. reflexivity.
  - discriminate.
Defined.

(** *** The end anchor: last occurrence *)

(** C8. When [is_start] is false, Strategy 1 of [locate_anchor] looks for
    the last offset at which the normalised marker occurs in the normalised
    text; when there is one and it is a key of the Position Map, the call
    returns the mapped offset with [len(marker)]. For instance, with the
    marker ["THE END"] occurring twice, the offset of the later occurrence
    in the original text is returned. *)
Theorem locate_anchor_end_last (text marker : str) (cm : gmap Z Z) (k o : Z) :
  (_map_norm_to_orig text (normalise text) = Some cm ->
   last_occurrence (normalise marker) (normalise text) k ->
   cm !! k = Some o ->
   locate_anchor text marker false = Some (o, len marker))
  /\ locate_anchor
       (py "THE END of part one." ++ [CR; LF; CR; LF] ++ py "THE END")
       (py "THE END") false = Some (24, 7).
Proof.
  split; [| vm_compute; reflexivity].
  intros Hcm Hlast Hk. unfold locate_anchor.
  rewrite Hcm. cbn [mbind option_bind]. cbv zeta.
  pose proof (occurs_at_nonneg _ _ _ (proj1 Hlast)) as Hpos.
  rewrite (rfind_of_last _ _ _ Hlast).
  replace (k =? -1) with false by (symmetry; apply Z.eqb_neq; lia).
  cbn [negb]. now rewrite Hk.
Qed.

Lemma locate_anchor_end_last_witness :
  locate_anchor (py "THE END. THE END") (py "THE END") false = Some (9, 7).
Proof.
  refine (proj1 (locate_anchor_end_last (py "THE END. THE END") (py "THE END")
                   (default ∅ (_map_norm_to_orig (py "THE END. THE END")
                                 (normalise (py "THE END. THE END"))))
                   9 9) _ _ _).
  - vm_compute. reflexivity.
  - exact (rfind_last (py "THE END") (py "THE END. THE END") ltac:(discriminate)).
  - vm_compute. reflexivity.
Defined.

(** *** The single-line fallback *)

Lemma lstrip_all_space (s : str) :
  Forall (fun c => isspace c = true) s -> lstrip s = [].
Proof.
  induction 1 as [| c s Hc _ IH]; [reflexivity |]. cbn [lstrip]. now rewrite Hc.
Qed.

Lemma strip_all_space (s : str) :
  Forall (fun c => isspace c = true) s -> strip s = [].
Proof. intros H. unfold strip. now rewrite (lstrip_all_space s H). Qed.

Lemma split_lines_all_space (s : str) :
  Forall (fun c => isspace c = true) s ->
  Forall (Forall (fun c => isspace c = true)) (split_lines s).
Proof.
  induction 1 as [| c s Hc _ IH]; cbn [split_lines].
  - repeat constructor.
  - destruct (c =? LF)%N; [constructor; [constructor | exact IH] |].
    destruct (split_lines s) as [| l ls]; [repeat constructor; exact Hc |].
    inversion IH as [| ? ? Hl Hls]; subst.
    constructor; [now constructor | exact Hls].
Qed.

Lemma filter_nonblank_all_space (ls : list (list N)) :
  Forall (Forall (fun c => isspace c = true)) ls ->
  List.filter nonblank ls = [].
Proof.
  induction 1 as [| l ls Hl _ IH]; [reflexivity |]. cbn [List.filter].
  unfold nonblank at 1. now rewrite (strip_all_space l Hl).
Qed.

(** When Strategy 1 yields nothing, the result is that of Strategy 2. *)
Lemma locate_anchor_falls_through (text marker : str) is_start (cm : gmap Z Z) :
  _map_norm_to_orig text (normalise text) = Some cm ->
  strategy1_nothing (normalise text) (normalise marker) is_start cm ->
  locate_anchor text marker is_start =
    single_line_fallback (normalise text) marker is_start cm.
Proof.
  intros Hcm Hno. unfold locate_anchor.
  rewrite Hcm. cbn [mbind option_bind]. cbv zeta.
  destruct is_start.
  - destruct Hno as [Habs | (k & Hpick & Hk)].
    + apply finditer_starts_nil in Habs. now rewrite Habs.
    + destruct (finditer_starts _ _) as [| p ps]; [reflexivity |].
      rewrite Hpick. cbn [mbind option_bind]. now rewrite Hk.
  - destruct Hno as [Habs | (k & Hlast & Hk)].
    + destruct (Z.eq_dec (rfind (normalise text) (normalise marker)) (-1))
        as [-> | Hr]; [reflexivity |].
      exfalso. apply rfind_last in Hr as [Hocc _]. exact (Habs _ Hocc).
    + rewrite (rfind_of_last _ _ _ Hlast), Hk. now destruct (negb _).
Qed.

(** What Strategy 2 returns once a line has been retained. *)
Lemma single_line_fallback_line (norm_text marker line : str) (is_start : bool)
    (cm : gmap Z Z) :
  (if is_start then head (List.filter nonblank (split_lines marker))
   else last (List.filter nonblank (split_lines marker))) = Some line ->
  ((forall k, ~ occurs_at (normalise line) norm_text k) ->
   single_line_fallback norm_text marker is_start cm = Some (-1, 0))
  /\ ((exists k, occurs_at (normalise line) norm_text k) ->
      exists k,
        occurs_at (normalise line) norm_text k
        /\ single_line_fallback norm_text marker is_start cm =
             match cm !! k with
             | Some o => Some (o, len (normalise line))
             | None => Some (-1, 0)
             end).
Proof.
  intros Hline. unfold single_line_fallback. rewrite Hline. split.
  - intros Habs. apply finditer_starts_nil in Habs. now rewrite Habs.
  - intros [k0 Hk0]. apply finditer_starts_found in Hk0.
    destruct (finditer_starts (normalise line) norm_text) as [| p ps] eqn:E;
      [congruence |].
    assert (Hbest : exists best,
              (if is_start
               then _pick_best_occurrence (p :: ps) norm_text
                      (len (normalise line))
               else last (p :: ps)) = Some best /\ In best (p :: ps)).
    { destruct is_start.
      - destruct (pick_best_occurrence_spec (p :: ps) norm_text
                    (len (normalise line))) as (best & Hbest & Hin & _);
          [discriminate | now exists best].
      - apply last_cons_is_Some. }
    destruct Hbest as (best & -> & Hin). cbn [mbind option_bind].
    exists best. split.
    + apply finditer_starts_occurs. now rewrite E.
    + now destruct (cm !! best).
Qed.

Example locate_chapter_fallback :
  locate_anchor chapter_text chapter_marker true = Some (2, 9).
Proof. vm_compute. reflexivity. Qed.

(** *** The start anchor: full match *)

Lemma slice_to_end (s : str) (j : nat) :
  (j <= length s)%nat -> slice s (Z.of_nat j) (len s) = drop j s.
Proof.
  intros Hj. unfold len.
  replace (Z.of_nat (length s)) with (Z.of_nat j + Z.of_nat (length s - j)) by lia.
  rewrite slice_of_nat. apply take_ge. rewrite length_drop. lia.
Qed.


(** *** The empty marker *)

Lemma remove_space_drop_length (s : str) n :
  (length (remove_space (drop n s)) <= length (remove_space s))%nat.
Proof.
  revert n. induction s as [| c s IH]; intros [| n];
    cbn [drop remove_space List.filter]; try lia.
  specialize (IH n). unfold remove_space in IH.
  destruct (negb (isspace c)); cbn [length]; lia.
Qed.

Lemma finditer_starts_empty_head (s : str) :
  head (finditer_starts [] s) = Some 0.
Proof. destruct s; reflexivity. Qed.

Lemma blank_line_factor (s : str) (e : nat) :
  s !! e = Some LF -> s !! S e = Some LF ->
  exists l1 l2, s = l1 ++ blank_line ++ l2.
Proof.
  intros H0 H1. exists (take e s), (drop (S (S e)) s).
  rewrite <- (take_drop_middle s e LF H0) at 1. f_equal.
  unfold blank_line. cbn [app]. f_equal. now apply drop_S.
Qed.

(** Without a blank line in the text, the Occurrence Selector keeps the
    first match of the empty pattern, at offset 0. *)
Lemma pick_empty_no_blank (norm_text : str) :
  (forall l1 l2, norm_text <> l1 ++ blank_line ++ l2) ->
  _pick_best_occurrence (finditer_starts [] norm_text) norm_text 0 = Some 0.
Proof.
  intros Hno.
  assert (Hne : finditer_starts [] norm_text <> []).
  { pose proof (finditer_starts_empty_head norm_text) as H.
    intros E. rewrite E in H. discriminate H. }
  destruct (pick_best_occurrence_spec _ norm_text 0 Hne)
    as (p & Hpick & Hin & [(before & after & _ & Hp & _) | [_ Hhead]]).
  - exfalso. apply finditer_starts_occurs, occurs_at_nonneg in Hin.
    unfold followed_by_blank_line in Hp. rewrite Z.add_0_r in Hp.
    replace p with (Z.of_nat (Z.to_nat p)) in Hp by lia.
    apply slice_blank_line in Hp as [H0 H1].
    destruct (blank_line_factor _ _ H0 H1) as (l1 & l2 & Heq).
    exact (Hno l1 l2 Heq).
  - rewrite finditer_starts_empty_head in Hhead. now injection Hhead as <-.
Qed.

(** A text that begins with a character that is not whitespace has this
    character first in its normalised form too, and the Position Map sends
    offset 0 to offset 0. *)
Lemma first_char_mapped (c : N) (rest : str) (cm : gmap Z Z) :
  isspace c = false ->
  _map_norm_to_orig (c :: rest) (normalise (c :: rest)) = Some cm ->
  cm !! 0 = Some 0.
Proof.
  intros Hc Hcm.
  destruct (position_map_built (c :: rest)) as (cm' & Hcm' & Hdom & _ & Hsuf).
  rewrite Hcm in Hcm'. injection Hcm' as <-.
  pose proof (remove_space_normalise (c :: rest)) as Hrs.
  assert (Hk : is_Some (cm !! 0)).
  { apply Hdom. destruct (normalise (c :: rest)) as [| d t] eqn:E.
    - cbn in Hrs. rewrite Hc in Hrs. discriminate Hrs.
    - exists d. split; [reflexivity |].
      apply (strip_head (sub_hspace false (sub_newlines 0 (sub_cr (c :: rest))))).
      fold (normalise (c :: rest)). now rewrite E. }
  destruct Hk as [o Ho]. rewrite Ho. f_equal.
  destruct (Hsuf 0 o Ho) as (m & j & Hm & -> & Hdrop).
  replace m with 0%nat in Hdrop by lia. rewrite drop_0, Hrs in Hdrop.
  destruct j as [| j]; [reflexivity | exfalso].
  change (drop (S j) (c :: rest)) with (drop j rest) in Hdrop.
  pose proof (remove_space_drop_length rest j) as Hlen.
  rewrite Hdrop in Hlen. cbn [remove_space List.filter] in Hlen.
  rewrite Hc in Hlen. cbn [negb length] in Hlen.
  unfold remove_space in Hlen. lia.
Qed.

(** C9, as the code has it. For every text, [locate_anchor(text, "", true)]
    raises nothing and returns a pair of length 0, whose offset is [-1] or
    the offset of a non-whitespace character of [text]. The offset is 0
    when [text] begins with a character that is not whitespace and
    [normalise(text)] has no blank line (no two newlines in a row). *)
Theorem locate_anchor_empty_marker (text : str) :
  exists o,
    locate_anchor text [] true = Some (o, 0)
    /\ (o = -1 \/ exists c, getitem text o = Some c /\ isspace c = false)
    /\ (forall c rest,
          text = c :: rest -> isspace c = false ->
          (forall l1 l2, normalise text <> l1 ++ blank_line ++ l2) ->
          o = 0).
Proof.
  destruct (position_map_built text) as (cm & Hcm & Hdom & Hval & _).
  assert (Hrun :
    locate_anchor text [] true =
      match finditer_starts [] (normalise text) with
      | [] => Some (-1, 0)
      | p :: ps =>
          best ← _pick_best_occurrence (p :: ps) (normalise text) 0;
          match cm !! best with
          | Some o => Some (o, 0)
          | None => Some (-1, 0)
          end
      end).
  { unfold locate_anchor. rewrite Hcm. cbn [mbind option_bind]. cbv zeta.
    change (normalise []) with (@nil N).
    destruct (finditer_starts [] (normalise text)); reflexivity. }
  assert (Hzero : forall c rest,
            text = c :: rest -> isspace c = false ->
            (forall l1 l2, normalise text <> l1 ++ blank_line ++ l2) ->
            locate_anchor text [] true = Some (0, 0)).
  { intros c rest -> Hc Hno. rewrite Hrun.
    pose proof (pick_empty_no_blank _ Hno) as Hpick.
    destruct (finditer_starts [] (normalise (c :: rest))) as [| p ps];
      [discriminate Hpick |].
    rewrite Hpick. cbn [mbind option_bind].
    now rewrite (first_char_mapped c rest cm Hc Hcm). }
  destruct (finditer_starts [] (normalise text)) as [| p ps] eqn:E.
  - exists (-1). split; [exact Hrun |]. split; [now left |].
    intros c rest Ht Hc Hno. specialize (Hzero c rest Ht Hc Hno). congruence.
  - destruct (pick_best_occurrence_spec (p :: ps) (normalise text) 0)
      as (best & Hpick & _); [discriminate |].
    rewrite Hpick in Hrun. cbn [mbind option_bind] in Hrun.
    destruct (cm !! best) as [o |] eqn:Eo.
    + exists o. split; [exact Hrun |]. split.
      * right. destruct (Hval best o Eo) as (c & _ & Hc & Hsp).
        exists c. split; [| exact Hsp].
        apply char_at_Some in Hc as (j & -> & Hj). now rewrite getitem_of_nat.
      * intros c rest Ht Hc Hno. specialize (Hzero c rest Ht Hc Hno). congruence.
    + exists (-1). split; [exact Hrun |]. split; [now left |].
      intros c rest Ht Hc Hno. specialize (Hzero c rest Ht Hc Hno). congruence.
Qed.

(** C9 as stated fails. With the empty marker the offset returned is not
    always 0: a text that
    begins with whitespace gives the offset of its first other character,
    and a text with a blank line, or without any character, gives the
    sentinel. *)
Lemma locate_anchor_empty_marker_counterexample :
  locate_anchor (py " a") [] true = Some (1, 0)
  /\ locate_anchor (py "a" ++ [LF; LF] ++ py "b") [] true = Some (-1, 0)
  /\ locate_anchor [] [] true = Some (-1, 0).
Proof. repeat split; vm_compute; reflexivity. Qed.

(** * Further properties of the code *)

(** ** [normalise] *)

Lemma remove_space_nil_iff (s : str) :
  remove_space s = [] <-> Forall (fun c => isspace c = true) s.
Proof.
  split; [| apply remove_space_all_space].
  induction s as [| c s IH]; [constructor |].
  cbn [remove_space List.filter]. destruct (isspace c) eqn:E; cbn [negb].
  - intros H. constructor; [exact E | now apply IH].
  - discriminate.
Qed.

Lemma normalise_nil_of_all_space (s : str) :
  Forall (fun c => isspace c = true) s -> normalise s = [].
Proof.
  intros H. apply remove_space_nil_iff in H.
  rewrite <- remove_space_normalise in H.
  destruct (normalise s) as [| c t] eqn:E; [reflexivity | exfalso].
  assert (Hc : isspace c = false).
  { apply (strip_head (sub_hspace false (sub_newlines 0 (sub_cr s)))).
    fold (normalise s). now rewrite E. }
  cbn [remove_space List.filter] in H. rewrite Hc in H. discriminate H.
Qed.

(** X1. [normalise] changes whitespace only: the characters of [s] that are
    not whitespace are those of [normalise(s)], in the same order. *)
Theorem normalise_keeps_nonspace (s : str) :
  remove_space (normalise s) = remove_space s.
Proof. apply remove_space_normalise. Qed.

(** X2. [normalise(s)] is the empty string exactly when [s] has no
    character other than whitespace. *)
Theorem normalise_empty_iff (s : str) :
  normalise s = [] <-> Forall (fun c => isspace c = true) s.
Proof.
  split; [| apply normalise_nil_of_all_space].
  intros H. apply remove_space_nil_iff.
  rewrite <- remove_space_normalise, H. reflexivity.
Qed.

Lemma length_emit_newlines run : (length (emit_newlines run) <= run)%nat.
Proof.
  unfold emit_newlines. destruct (3 <=? run)%nat eqn:E.
  - apply Nat.leb_le in E. cbn [length]. lia.
  - rewrite length_replicate. lia.
Qed.

Lemma length_sub_newlines (s : str) run :
  (length (sub_newlines run s) <= run + length s)%nat.
Proof.
  revert run. induction s as [| c s IH]; intros run; cbn [sub_newlines length].
  - pose proof (length_emit_newlines run). lia.
  - destruct (c =? LF)%N.
    + specialize (IH (S run)). lia.
    + rewrite length_app. cbn [length].
      pose proof (length_emit_newlines run). specialize (IH 0%nat). lia.
Qed.

Lemma length_sub_hspace (s : str) b :
  (length (sub_hspace b s) <= length s)%nat.
Proof.
  revert b. induction s as [| c s IH]; intros b; cbn [sub_hspace length];
    [lia |].
  destruct (is_hspace c); [destruct b |]; cbn [length];
    [specialize (IH true) | specialize (IH true) | specialize (IH false)]; lia.
Qed.

Lemma length_strip (s : str) : (length (strip s) <= length s)%nat.
Proof.
  destruct (strip_split s) as (w1 & w2 & Hs & _).
  rewrite Hs at 2. rewrite !length_app. lia.
Qed.

(** X3. [normalise] never lengthens a string. *)
Theorem normalise_length_le (s : str) : len (normalise s) <= len s.
Proof.
  unfold normalise, len.
  pose proof (length_strip (sub_hspace false (sub_newlines 0 (sub_cr s)))).
  pose proof (length_sub_hspace (sub_newlines 0 (sub_cr s)) false).
  pose proof (length_sub_newlines (sub_cr s) 0).
  assert (length (sub_cr s) = length s) by apply List.length_map.
  lia.
Qed.

(** ** [_map_norm_to_orig] without its precondition *)

Lemma skip_space_none (original : str) (i : nat) :
  remove_space (drop i original) = [] ->
  skip_space (length original) original (Z.of_nat i) = None.
Proof.
  remember (length original - i)%nat as d eqn:Hd.
  revert i Hd. induction d as [| d IH]; intros i Hd Hrs;
    rewrite skip_space_unfold.
  - now rewrite (proj2 (lookup_ge_None original i)) by lia.
  - destruct (original !! i) as [ch |] eqn:E; [| reflexivity].
    rewrite (drop_S _ _ _ E) in Hrs. cbn [remove_space List.filter] in Hrs.
    destruct (isspace ch); cbn [negb] in Hrs; [| discriminate Hrs].
    apply IH; [| exact Hrs].
    apply lookup_lt_Some in E. lia.
Qed.

Lemma map_loop_is_Some (original rest : str) (n i : nat) (cm : gmap Z Z) :
  is_Some (map_loop original rest (Z.of_nat n) cm (Z.of_nat i)) <->
  (length (remove_space rest) <= length (remove_space (drop i original)))%nat.
Proof.
  revert n i cm. induction rest as [| ch rest IH]; intros n i cm;
    cbn [map_loop remove_space List.filter].
  - split; [cbn [length]; lia | intros _; now eexists].
  - replace (Z.of_nat n + 1) with (Z.of_nat (S n)) by lia.
    destruct (isspace ch); cbn [negb]; [apply IH |].
    destruct (remove_space (drop i original)) as [| c t] eqn:E.
    + rewrite (skip_space_none original i E). cbn [length]. split.
      * intros [x Hx]. discriminate Hx.
      * lia.
    + destruct (skip_space_spec original i c t E) as (j & _ & Hsk & _ & _ & Ht).
      rewrite Hsk. replace (Z.of_nat j + 1) with (Z.of_nat (S j)) by lia.
      rewrite IH. fold (remove_space rest). rewrite Ht. cbn [length]. lia.
Qed.

(** X4. [_map_norm_to_orig] compares no characters: it raises [IndexError]
    exactly when [normalised] has more characters that are not whitespace
    than [original], and returns a dictionary otherwise. *)
Theorem map_norm_to_orig_fault_iff (original normalised : str) :
  _map_norm_to_orig original normalised = None <->
  (length (remove_space original) < length (remove_space normalised))%nat.
Proof.
  unfold _map_norm_to_orig.
  pose proof (map_loop_is_Some original normalised 0 0 ∅) as H.
  change (Z.of_nat 0) with 0 in H. rewrite drop_0 in H.
  destruct (map_loop original normalised 0 ∅ 0) as [cm |].
  - split; [discriminate |]. intros Hlt.
    assert (Hs : is_Some (Some cm)) by now eexists.
    apply H in Hs. lia.
  - split; [| reflexivity]. intros _.
    destruct (Nat.le_gt_cases (length (remove_space normalised))
                (length (remove_space original))) as [Hle | Hgt]; [| exact Hgt].
    apply H in Hle. destruct Hle as [x Hx]. discriminate Hx.
Qed.

(** ** [locate_anchor]: what it returns *)

(** The call returns from Strategy 1, with an offset of the Position Map
    and the length of the marker, or returns what Strategy 2 returns. *)
Lemma locate_anchor_split (text marker : str) (is_start : bool) :
  exists cm : gmap Z Z,
    _map_norm_to_orig text (normalise text) = Some cm
    /\ ((exists k o, cm !! k = Some o
                     /\ locate_anchor text marker is_start = Some (o, len marker))
        \/ locate_anchor text marker is_start =
             single_line_fallback (normalise text) marker is_start cm).
Proof.
  destruct (position_map_built text) as (cm & Hcm & _).
  exists cm. split; [exact Hcm |].
  unfold locate_anchor. rewrite Hcm. cbn [mbind option_bind]. cbv zeta.
  destruct is_start.
  - destruct (finditer_starts (normalise marker) (normalise text))
      as [| p ps] eqn:E; [now right |].
    destruct (pick_best_occurrence_spec (p :: ps) (normalise text)
                (len (normalise marker))) as (best & -> & _); [discriminate |].
    cbn [mbind option_bind].
    destruct (cm !! best) as [o |] eqn:Eo; [| now right].
    left. now exists best, o.
  - destruct (negb _); [| now right].
    destruct (cm !! rfind (normalise text) (normalise marker)) as [o |] eqn:Eo;
      [| now right].
    left. eexists. exists o. split; [exact Eo | reflexivity].
Qed.

(** Strategy 2 returns the sentinel, or an offset of the Position Map with
    the length of the normalised line. *)
Lemma single_line_fallback_result (norm_text marker : str) (is_start : bool)
    (cm : gmap Z Z) :
  single_line_fallback norm_text marker is_start cm = Some (-1, 0)
  \/ exists line k o,
       cm !! k = Some o
       /\ single_line_fallback norm_text marker is_start cm =
            Some (o, len (normalise line)).
Proof.
  unfold single_line_fallback.
  destruct (if is_start then head _ else last _) as [line |]; [| now left].
  destruct (finditer_starts (normalise line) norm_text) as [| p ps] eqn:E;
    [now left |].
  assert (Hbest : exists best,
            (if is_start
             then _pick_best_occurrence (p :: ps) norm_text (len (normalise line))
             else last (p :: ps)) = Some best).
  { destruct is_start.
    - destruct (pick_best_occurrence_spec (p :: ps) norm_text
                  (len (normalise line))) as (best & Hbest & _);
        [discriminate | now exists best].
    - destruct (last_cons_is_Some p ps) as (q & Hq & _). now exists q. }
  destruct Hbest as [best ->]. cbn [mbind option_bind].
  destruct (cm !! best) as [o |] eqn:Eo; [| now left].
  right. now exists line, best, o.
Qed.

Lemma map_value_in_text (text : str) (cm : gmap Z Z) k o :
  _map_norm_to_orig text (normalise text) = Some cm ->
  cm !! k = Some o -> 0 <= o < len text.
Proof.
  intros Hcm Hk.
  destruct (position_map_built text) as (cm' & Hcm' & _ & Hval & _).
  rewrite Hcm in Hcm'. injection Hcm' as <-.
  destruct (Hval k o Hk) as (c & _ & Hc & _).
  apply char_at_Some in Hc as (j & -> & Hj).
  apply lookup_lt_Some in Hj. unfold len. lia.
Qed.

(** X5. [locate_anchor] raises no exception, whatever the text, the marker
    and the flag: it returns a pair [(o, l)] with [l >= 0], which is either
    the sentinel [(-1, 0)] or has [0 <= o < len(text)]. *)
Theorem locate_anchor_never_raises (text marker : str) (is_start : bool) :
  exists o l,
    locate_anchor text marker is_start = Some (o, l)
    /\ 0 <= l
    /\ ((o = -1 /\ l = 0) \/ 0 <= o < len text).
Proof.
  destruct (locate_anchor_split text marker is_start)
    as (cm & Hcm & [(k & o & Hk & Hres) | Hres]).
  - exists o, (len marker). split; [exact Hres |].
    split; [unfold len; lia |]. right. exact (map_value_in_text _ _ _ _ Hcm Hk).
  - destruct (single_line_fallback_result (normalise text) marker is_start cm)
      as [Hfb | (line & k & o & Hk & Hfb)]; rewrite Hfb in Hres.
    + exists (-1), 0. split; [exact Hres |]. split; [lia | now left].
    + exists o, (len (normalise line)). split; [exact Hres |].
      split; [unfold len; lia |]. right.
      exact (map_value_in_text _ _ _ _ Hcm Hk).
Qed.

Lemma head_filter_true (f : list N -> bool) (l : list (list N)) x :
  head (List.filter f l) = Some x -> f x = true.
Proof.
  intros H. assert (Hin : In x (List.filter f l)).
  { destruct (List.filter f l) as [| y t]; [discriminate H |].
    injection H as ->. now left. }
  now apply List.filter_In in Hin.
Qed.

Lemma last_filter_true (f : list N -> bool) (l : list (list N)) x :
  last (List.filter f l) = Some x -> f x = true.
Proof.
  intros H. assert (Hin : In x (List.filter f l)).
  { apply list_elem_of_In. apply last_Some_elem_of. exact H. }
  now apply List.filter_In in Hin.
Qed.

Lemma nonblank_normalise (line : str) :
  nonblank line = true -> normalise line <> [].
Proof.
  unfold nonblank. intros Hnb Hnil.
  assert (Hsp : Forall (fun c => isspace c = true) line).
  { apply remove_space_nil_iff.
    rewrite <- remove_space_normalise, Hnil. reflexivity. }
  now rewrite (strip_all_space line Hsp) in Hnb.
Qed.

(** X6. The fallback always finds a line that is there: when the line
    retained from the marker (its first non-blank line for a start anchor,
    its last for an end anchor) occurs, once normalised, in the normalised
    text, [locate_anchor] returns an offset of the text and a positive
    length, never the sentinel. In particular the test
    [best_idx not in char_map] of Strategy 2 never succeeds. *)
Theorem locate_anchor_line_found (text marker line : str) (is_start : bool) :
  (if is_start then head (List.filter nonblank (split_lines marker))
   else last (List.filter nonblank (split_lines marker))) = Some line ->
  (exists k, occurs_at (normalise line) (normalise text) k) ->
  exists o l,
    locate_anchor text marker is_start = Some (o, l)
    /\ 0 <= o < len text /\ 0 < l.
Proof.
  intros Hline Hocc.
  assert (Hnb : nonblank line = true).
  { destruct is_start; [eapply head_filter_true | eapply last_filter_true];
      exact Hline. }
  pose proof (nonblank_normalise line Hnb) as Hne.
  assert (Hmarker : marker <> []).
  { intros ->. cbn in Hline. now destruct is_start. }
  destruct (locate_anchor_split text marker is_start)
    as (cm & Hcm & [(k & o & Hk & Hres) | Hres]).
  - exists o, (len marker). split; [exact Hres |].
    split; [exact (map_value_in_text _ _ _ _ Hcm Hk) |].
    destruct marker; [congruence | unfold len; cbn [length]; lia].
  - destruct (single_line_fallback_line (normalise text) marker line is_start
                cm Hline) as [_ Hfound].
    destruct (Hfound Hocc) as (k & Hk & Hfb).
    destruct (position_map_built text) as (cm' & Hcm' & Hdom & _).
    rewrite Hcm in Hcm'. injection Hcm' as <-.
    destruct (occurs_at_normalised_head line _ k Hne Hk) as (c & Hc & Hsp & _).
    assert (Hin : is_Some (cm !! k)) by (apply Hdom; now exists c).
    destruct Hin as [o Ho]. rewrite Ho in Hfb.
    exists o, (len (normalise line)). split; [congruence |].
    split; [exact (map_value_in_text _ _ _ _ Hcm Ho) |].
    destruct (normalise line); [congruence | unfold len; cbn [length]; lia].
Qed.

Lemma locate_anchor_line_found_witness :
  exists o l,
    locate_anchor chapter_text chapter_marker true = Some (o, l)
    /\ 0 <= o < len chapter_text /\ 0 < l.
Proof.
  apply (locate_anchor_line_found chapter_text chapter_marker (py "CHAPTER I")
           true).
  - vm_compute. reflexivity.
  - exists 0. exists [], ([46%N; LF; LF] ++ py "Down the hole").
    split; vm_compute; reflexivity.
Defined.

(** X7. An end anchor made of whitespace only (the empty marker included)
    is never located: [locate_anchor(text, marker, False)] is [(-1, 0)]
    for every text. *)
Theorem locate_anchor_end_blank_marker (text marker : str) :
  Forall (fun c => isspace c = true) marker ->
  locate_anchor text marker false = Some (-1, 0).
Proof.
  intros Hsp.
  destruct (position_map_built text) as (cm & Hcm & Hdom & _).
  assert (Hfb : single_line_fallback (normalise text) marker false cm
                = Some (-1, 0)).
  { unfold single_line_fallback.
    now rewrite (filter_nonblank_all_space _ (split_lines_all_space _ Hsp)). }
  unfold locate_anchor. rewrite Hcm. cbn [mbind option_bind]. cbv zeta.
  rewrite Hfb, (normalise_nil_of_all_space marker Hsp).
  destruct (Z.eq_dec (rfind (normalise text) []) (-1)) as [-> | Hr];
    [reflexivity |].
  destruct (negb _); [| reflexivity].
  destruct (cm !! rfind (normalise text) []) as [o |] eqn:Eo; [| reflexivity].
  exfalso. destruct (rfind_last _ _ Hr) as [Hocc Hmax].
  assert (Hend : occurs_at [] (normalise text) (len (normalise text))).
  { exists (normalise text), []. split; [now rewrite app_nil_r | reflexivity]. }
  apply Hmax in Hend.
  assert (Hin : is_Some (cm !! rfind (normalise text) []))
    by (exists o; exact Eo).
  apply Hdom in Hin as (c & Hc & _).
  apply char_at_Some in Hc as (j & Hj & Hc). apply lookup_lt_Some in Hc.
  unfold len in Hend. lia.
Qed.

Lemma locate_anchor_end_blank_marker_witness :
  locate_anchor (py "THE END") (py "  " ++ [LF]) false = Some (-1, 0).
Proof.
  apply (locate_anchor_end_blank_marker (py "THE END") (py "  " ++ [LF])).
  repeat constructor.
Defined.

(** ** [_clean_text] *)

Lemma space_ok_weaken (s : str) b :
  space_ok b s = true -> space_ok false s = true.
Proof.
  destruct s as [| c s]; [reflexivity |]. cbn [space_ok].
  destruct (isspace c); [| tauto].
  intros H. apply andb_true_iff in H as [H1 H2].
  apply andb_true_iff in H1 as [_ H1].
  now rewrite H1, H2.
Qed.

Lemma space_ok_sub_space (s : str) b : space_ok b (sub_space b s) = true.
Proof.
  revert b. induction s as [| c s IH]; intros b; cbn [sub_space];
    [reflexivity |].
  destruct (isspace c) eqn:E.
  - destruct b; [apply IH |].
    cbn [space_ok]. change (isspace SP) with true. cbv iota.
    change (SP =? SP)%N with true. cbn [negb andb]. apply IH.
  - cbn [space_ok]. rewrite E. apply IH.
Qed.

Lemma space_ok_app_l b (x y : str) :
  space_ok b (x ++ y) = true -> space_ok b x = true.
Proof.
  revert b. induction x as [| c x IH]; intros b; [reflexivity |].
  cbn [app space_ok]. destruct (isspace c); [| apply IH].
  intros H. apply andb_true_iff in H as [H1 H2].
  apply andb_true_iff. split; [exact H1 | now apply IH].
Qed.

Lemma space_ok_app_r b (x y : str) :
  space_ok b (x ++ y) = true -> space_ok false y = true.
Proof.
  revert b. induction x as [| c x IH]; intros b.
  - apply space_ok_weaken.
  - cbn [app space_ok]. destruct (isspace c); [| apply IH].
    intros H. apply andb_true_iff in H as [_ H2]. now apply IH in H2.
Qed.

Lemma space_ok_pair b (l1 l2 : str) x y :
  space_ok b (l1 ++ [x; y] ++ l2) = true ->
  ~ (isspace x = true /\ isspace y = true).
Proof.
  intros H [Hx Hy]. apply space_ok_app_r in H.
  cbn [app space_ok] in H. rewrite Hx, Hy in H.
  cbn [negb andb] in H.
  now rewrite andb_false_r in H.
Qed.

Lemma space_ok_only_SP b (s : str) :
  space_ok b s = true -> Forall (fun c => isspace c = true -> c = SP) s.
Proof.
  revert b. induction s as [| c s IH]; intros b; [constructor |].
  cbn [space_ok]. destruct (isspace c) eqn:E; intros H.
  - apply andb_true_iff in H as [H1 H2].
    apply andb_true_iff in H1 as [_ H1]. apply N.eqb_eq in H1.
    constructor; [now intros _ | now apply IH in H2].
  - constructor; [intros Hc; congruence | now apply IH in H].
Qed.

Lemma sub_space_id (s : str) b : space_ok b s = true -> sub_space b s = s.
Proof.
  revert b. induction s as [| c s IH]; intros b; cbn [space_ok sub_space];
    [reflexivity |].
  destruct (isspace c).
  - intros H. apply andb_true_iff in H as [H1 H2].
    apply andb_true_iff in H1 as [Hb Hc].
    apply negb_true_iff in Hb. subst b. apply N.eqb_eq in Hc. subst c.
    f_equal. now apply IH.
  - intros H. f_equal. now apply IH.
Qed.

Lemma remove_space_sub_space (s : str) b :
  remove_space (sub_space b s) = remove_space s.
Proof.
  revert b. induction s as [| c s IH]; intros b; cbn [sub_space]; [reflexivity |].
  destruct (isspace c) eqn:E.
  - cbn [remove_space List.filter]. rewrite E. cbn [negb].
    destruct b; [apply IH |].
    cbn [remove_space List.filter]. change (isspace SP) with true.
    cbn [negb]. apply IH.
  - cbn [remove_space List.filter]. rewrite E. cbn [negb]. f_equal. apply IH.
Qed.

(** What [_clean_text] computes, on the string [s or ""]. *)
Lemma clean_text_eq (s : option (list N)) :
  _clean_text s = strip (sub_space false (default [] s)).
Proof. destruct s as [[| c rest] |]; reflexivity. Qed.

Lemma clean_text_space_ok (s : option (list N)) :
  space_ok false (_clean_text s) = true.
Proof.
  rewrite clean_text_eq.
  destruct (strip_split (sub_space false (default [] s)))
    as (w1 & w2 & Hs & _ & _).
  pose proof (space_ok_sub_space (default [] s) false) as H.
  rewrite Hs in H. apply space_ok_app_r in H. now apply space_ok_app_l in H.
Qed.

(** X8. [_clean_text] is idempotent: cleaning a cleaned string changes
    nothing. *)
Theorem clean_text_idempotent (s : option (list N)) :
  _clean_text (Some (_clean_text s)) = _clean_text s.
Proof.
  pose proof (clean_text_space_ok s) as Hok.
  assert (Hh : forall c, head (_clean_text s) = Some c -> isspace c = false)
    by (intros c; rewrite clean_text_eq; apply strip_head).
  assert (Hl : forall c, last (_clean_text s) = Some c -> isspace c = false)
    by (intros c; rewrite clean_text_eq; apply strip_last).
  generalize dependent (_clean_text s). intros t Hok Hh Hl.
  rewrite clean_text_eq. change (default [] (Some t)) with t.
  rewrite (sub_space_id t false Hok). now apply strip_id.
Qed.

(** X9. The result of [_clean_text] is a single line of words: its only
    whitespace characters are spaces (so it has no newline and no tab), no
    two of them are neighbours, and it neither begins nor ends with one. *)
Theorem clean_text_shape (s : option (list N)) :
  Forall (fun c => isspace c = true -> c = SP) (_clean_text s)
  /\ (forall (l1 l2 : str) x y,
        _clean_text s = l1 ++ [x; y] ++ l2 ->
        ~ (isspace x = true /\ isspace y = true))
  /\ (forall c, head (_clean_text s) = Some c -> isspace c = false)
  /\ (forall c, last (_clean_text s) = Some c -> isspace c = false).
Proof.
  pose proof (clean_text_space_ok s) as Hok.
  split; [| split; [| split]].
  - exact (space_ok_only_SP _ _ Hok).
  - intros l1 l2 x y Heq. rewrite Heq in Hok.
    exact (space_ok_pair _ _ _ _ _ Hok).
  - intros c. rewrite clean_text_eq. apply strip_head.
  - intros c. rewrite clean_text_eq. apply strip_last.
Qed.

(** X10. [_clean_text] changes whitespace only: the characters of its
    result that are not whitespace are those of its argument, in the same
    order ([None] counting as the empty string). So the result is empty
    exactly when the argument has no character other than whitespace. *)
Theorem clean_text_keeps_nonspace (s : option (list N)) :
  remove_space (_clean_text s) = remove_space (default [] s)
  /\ (_clean_text s = [] <->
      Forall (fun c => isspace c = true) (default [] s)).
Proof.
  assert (Hrs : remove_space (_clean_text s) = remove_space (default [] s)).
  { rewrite clean_text_eq, remove_space_strip. apply remove_space_sub_space. }
  split; [exact Hrs |]. rewrite <- remove_space_nil_iff, <- Hrs. split.
  - now intros ->.
  - intros H. destruct (_clean_text s) as [| c t] eqn:E; [reflexivity | exfalso].
    assert (Hc : isspace c = false).
    { apply (strip_head (sub_space false (default [] s))).
      rewrite <- clean_text_eq, E. reflexivity. }
    cbn [remove_space List.filter] in H. rewrite Hc in H. discriminate H.
Qed.

(** ** [_extract_ebook_id] and [plaintext_url] *)

Lemma re_search_here (m : list N -> option (list N)) (s : str) r :
  m s = Some r -> re_search m s = Some r.
Proof. intros H. destruct s; cbn [re_search]; now rewrite H. Qed.

Lemma re_search_skip (m : list N -> option (list N)) c (s : str) :
  m (c :: s) = None -> re_search m (c :: s) = re_search m s.
Proof. intros H. cbn [re_search]. now rewrite H. Qed.

(** A match found by [re_search] is a match at the head of a suffix. *)
Lemma re_search_found (m : list N -> option (list N)) (s : str) r :
  re_search m s = Some r -> exists pre suf, s = pre ++ suf /\ m suf = Some r.
Proof.
  induction s as [| c s IH]; cbn [re_search].
  - destruct (m []) eqn:E; [| discriminate].
    intros [= <-]. now exists [], [].
  - destruct (m (c :: s)) eqn:E.
    + intros [= <-]. now exists [], (c :: s).
    + intros H. destruct (IH H) as (pre & suf & -> & Hm).
      now exists (c :: pre), suf.
Qed.

(** A match at the head of a suffix makes [re_search] find a match. *)
Lemma re_search_complete (m : list N -> option (list N)) (pre suf : str) r :
  m suf = Some r -> is_Some (re_search m (pre ++ suf)).
Proof.
  intros H. induction pre as [| c pre IH].
  - cbn [app]. rewrite (re_search_here m _ r H). now eexists.
  - cbn [app re_search]. destruct (m (c :: pre ++ suf)); [now eexists | exact IH].
Qed.

Lemma take_digits_spec (isdigit : N -> bool) (s : str) :
  Forall (fun c => isdigit c = true) (take_digits isdigit s)
  /\ exists rest, s = take_digits isdigit s ++ rest.
Proof.
  induction s as [| c s (IHd & rest & IHs)]; cbn [take_digits].
  - split; [constructor | now exists []].
  - destruct (isdigit c) eqn:E.
    + split; [now constructor |]. exists rest. cbn [app]. now f_equal.
    + split; [constructor | now exists (c :: s)].
Qed.

Lemma take_digits_app (isdigit : N -> bool) (d rest : str) :
  Forall (fun c => isdigit c = true) d ->
  (forall c, head rest = Some c -> isdigit c = false) ->
  take_digits isdigit (d ++ rest) = d.
Proof.
  intros Hd Hrest. induction Hd as [| c d Hc _ IH]; cbn [app take_digits].
  - destruct rest as [| c rest]; [reflexivity |].
    cbn [take_digits]. now rewrite (Hrest c eq_refl).
  - rewrite Hc. now f_equal.
Qed.

Lemma digits_then_end_spec (isdigit : N -> bool) (t d : str) :
  digits_then_end isdigit t = Some d ->
  d <> [] /\ Forall (fun c => isdigit c = true) d
  /\ exists rest, t = d ++ rest /\ end_ok rest = true.
Proof.
  revert d. induction t as [| c t IH]; intros d; cbn [digits_then_end];
    [discriminate |].
  destruct (isdigit c) eqn:E; [| discriminate].
  destruct (digits_then_end isdigit t) as [d' |].
  - intros [= <-]. destruct (IH d' eq_refl) as (_ & Hd & rest & -> & Hend).
    split; [discriminate |]. split; [now constructor |]. now exists rest.
  - destruct (end_ok t) eqn:Hend; [| discriminate].
    intros [= <-]. split; [discriminate |].
    split; [now repeat constructor |]. now exists t.
Qed.

Lemma digits_then_end_slash (isdigit : N -> bool) (d rest : str) :
  isdigit SLASH = false -> d <> [] ->
  Forall (fun c => isdigit c = true) d ->
  digits_then_end isdigit (d ++ SLASH :: rest) = Some d.
Proof.
  intros Hslash Hne Hd. induction Hd as [| c d Hc Hd IH]; [congruence |].
  cbn [app digits_then_end]. rewrite Hc.
  destruct d as [| c' d].
  - cbn [app digits_then_end]. rewrite Hslash. reflexivity.
  - rewrite IH by discriminate. reflexivity.
Qed.

Lemma startswith_drop (pat s : str) :
  startswith pat s = true -> s = pat ++ drop (length pat) s.
Proof.
  intros H. apply startswith_spec in H as [after ->].
  now rewrite drop_app_length.
Qed.

Lemma match_id_at_spec (isdigit : N -> bool) (s d : str) :
  match_id_at isdigit s = Some d ->
  d <> [] /\ Forall (fun c => isdigit c = true) d
  /\ exists word rest,
       s = word ++ d ++ rest /\ (word = py "ebooks/" \/ word = py "/epub/").
Proof.
  unfold match_id_at, match_ebooks, match_epub.
  destruct (startswith (py "ebooks/") s) eqn:E1.
  - apply startswith_drop in E1.
    destruct (take_digits_spec isdigit (drop (length (py "ebooks/")) s))
      as (Hd & rest & Hrest).
    destruct (take_digits isdigit (drop (length (py "ebooks/")) s))
      as [| c d'] eqn:Et.
    + destruct (startswith (py "/epub/") s) eqn:E2; [| discriminate].
      exfalso. rewrite E1 in E2. discriminate E2.
    + intros [= <-]. split; [discriminate |]. split; [exact Hd |].
      exists (py "ebooks/"), rest. split; [| now left].
      rewrite E1 at 1. now rewrite Hrest.
  - destruct (startswith (py "/epub/") s) eqn:E2; [| discriminate].
    apply startswith_drop in E2. intros H.
    apply digits_then_end_spec in H as (Hne & Hd & rest & Hrest & _).
    split; [exact Hne |]. split; [exact Hd |].
    exists (py "/epub/"), rest. split; [| now right].
    rewrite E2 at 1. now rewrite Hrest.
Qed.

(** X11. An identifier returned by [_extract_ebook_id] is a non-empty
    string of digits that stands in the URL right after ["ebooks/"] or
    ["/epub/"]; a URL with neither gives [None]. *)
Theorem extract_ebook_id_digits (isdigit : N -> bool) (url d : str) :
  _extract_ebook_id isdigit url = Some d ->
  d <> [] /\ Forall (fun c => isdigit c = true) d
  /\ exists pre word rest,
       url = pre ++ word ++ d ++ rest
       /\ (word = py "ebooks/" \/ word = py "/epub/").
Proof.
  unfold _extract_ebook_id. intros H.
  apply re_search_found in H as (pre & suf & -> & Hm).
  apply match_id_at_spec in Hm as (Hne & Hd & word & rest & -> & Hw).
  split; [exact Hne |]. split; [exact Hd |]. now exists pre, word, rest.
Qed.

Lemma extract_ebook_id_digits_witness :
  py "11" <> [] /\ Forall (fun c => ascii_isdigit c = true) (py "11")
  /\ exists pre word rest,
       py "https://www.gutenberg.org/ebooks/11.txt.utf-8"
       = pre ++ word ++ py "11" ++ rest
       /\ (word = py "ebooks/" \/ word = py "/epub/").
Proof.
  apply (extract_ebook_id_digits ascii_isdigit
           (py "https://www.gutenberg.org/ebooks/11.txt.utf-8") (py "11")).
  vm_compute. reflexivity.
Defined.

(** X12. [_extract_ebook_id] undoes [plaintext_url]: for every non-empty
    string of digits [ebook_id],
    [_extract_ebook_id(plaintext_url(ebook_id)) == ebook_id] (the slash not
    being a digit). *)
Theorem extract_ebook_id_plaintext_url (isdigit : N -> bool) (ebook_id : str) :
  isdigit SLASH = false ->
  ebook_id <> [] ->
  Forall (fun c => isdigit c = true) ebook_id ->
  _extract_ebook_id isdigit (plaintext_url ebook_id) = Some ebook_id.
Proof.
  intros Hslash Hne Hd. unfold _extract_ebook_id, plaintext_url.
  let p := eval vm_compute in (py "https://www.gutenberg.org/cache/epub/") in
  change (py "https://www.gutenberg.org/cache/epub/") with p.
  let p := eval vm_compute in (py "/pg") in change (py "/pg") with p.
  cbn [app].
  repeat (rewrite re_search_skip by reflexivity).
  apply re_search_here.
  unfold match_id_at, match_ebooks, match_epub.
  let p := eval vm_compute in (py "ebooks/") in change (py "ebooks/") with p.
  let p := eval vm_compute in (py "/epub/") in change (py "/epub/") with p.
  cbn [startswith N.eqb Pos.eqb andb length drop].
  now apply digits_then_end_slash.
Qed.

Lemma extract_ebook_id_plaintext_url_witness :
  _extract_ebook_id ascii_isdigit (plaintext_url (py "2701")) = Some (py "2701").
Proof.
  apply (extract_ebook_id_plaintext_url ascii_isdigit (py "2701")).
  - reflexivity.
  - discriminate.
  - repeat constructor.
Defined.

(** X13. The page URL of a book gives its number back: when the non-empty
    string of digits [ebook_id] is followed by nothing or by a character
    that is not a digit,
    [_extract_ebook_id("https://www.gutenberg.org/ebooks/" + ebook_id +
    rest) == ebook_id]. *)
Theorem extract_ebook_id_page_url (isdigit : N -> bool) (ebook_id rest : str) :
  ebook_id <> [] ->
  Forall (fun c => isdigit c = true) ebook_id ->
  (forall c, head rest = Some c -> isdigit c = false) ->
  _extract_ebook_id isdigit
    (py "https://www.gutenberg.org/ebooks/" ++ ebook_id ++ rest)
  = Some ebook_id.
Proof.
  intros Hne Hd Hrest. unfold _extract_ebook_id.
  let p := eval vm_compute in (py "https://www.gutenberg.org/ebooks/") in
  change (py "https://www.gutenberg.org/ebooks/") with p.
  cbn [app].
  repeat (rewrite re_search_skip by reflexivity).
  apply re_search_here.
  unfold match_id_at, match_ebooks.
  let p := eval vm_compute in (py "ebooks/") in change (py "ebooks/") with p.
  cbn [startswith N.eqb Pos.eqb andb length drop].
  rewrite drop_0, (take_digits_app isdigit ebook_id rest Hd Hrest).
  destruct ebook_id; [congruence | reflexivity].
Qed.

Lemma extract_ebook_id_page_url_witness :
  _extract_ebook_id ascii_isdigit
    (py "https://www.gutenberg.org/ebooks/" ++ py "11" ++ py ".txt.utf-8")
  = Some (py "11").
Proof.
  apply (extract_ebook_id_page_url ascii_isdigit (py "11") (py ".txt.utf-8")).
  - discriminate.
  - repeat constructor.
  - intros c [= <-]. reflexivity.
Defined.

(** ** [_choose_genre] *)

Lemma str_in_spec (pat s : str) :
  str_in pat s = true <-> exists pre post, s = pre ++ pat ++ post.
Proof.
  induction s as [| c s IH]; cbn [str_in].
  - rewrite startswith_spec. split.
    + intros [after H]. now exists [], after.
    + intros (pre & post & H). destruct pre; [| discriminate H].
      now exists post.
  - rewrite orb_true_iff, startswith_spec, IH. split.
    + intros [[after H] | (pre & post & H)].
      * now exists [], after.
      * exists (c :: pre), post. cbn [app]. now f_equal.
    + intros ([| c' pre] & post & H).
      * left. now exists post.
      * right. injection H as -> H. now exists pre, post.
Qed.

(** The inner loop, on the lowered subjects. *)
Lemma first_containing_map (lower : list N -> list N) (kw : str)
    (subjects : list (list N)) :
  match first_containing kw (List.map lower subjects) with
  | Some s =>
      exists pre g post,
        subjects = pre ++ g :: post /\ s = lower g
        /\ str_in kw (lower g) = true
        /\ Forall (fun x => str_in kw (lower x) = false) pre
  | None => Forall (fun x => str_in kw (lower x) = false) subjects
  end.
Proof.
  induction subjects as [| x subjects IH]; cbn [List.map first_containing];
    [constructor |].
  destruct (str_in kw (lower x)) eqn:E.
  - exists [], x, subjects. repeat split; auto.
  - destruct (first_containing kw (List.map lower subjects)) as [s |].
    + destruct IH as (pre & g & post & -> & Hs & Hg & Hpre).
      exists (x :: pre), g, post. repeat split; auto.
    + now constructor.
Qed.

Lemma first_containing_hit (lower : list N -> list N) (kw : str)
    (pre : list (list N)) g (post : list (list N)) :
  Forall (fun x => str_in kw (lower x) = false) pre ->
  str_in kw (lower g) = true ->
  first_containing kw (List.map lower (pre ++ g :: post)) = Some (lower g).
Proof.
  intros Hpre Hg. induction Hpre as [| x pre Hx _ IH];
    cbn [app List.map first_containing].
  - now rewrite Hg.
  - now rewrite Hx.
Qed.

Lemma first_containing_none (lower : list N -> list N) (kw : str)
    (subjects : list (list N)) :
  Forall (fun x => str_in kw (lower x) = false) subjects ->
  first_containing kw (List.map lower subjects) = None.
Proof.
  induction 1 as [| x subjects Hx _ IH]; cbn [List.map first_containing];
    [reflexivity |].
  now rewrite Hx.
Qed.

(** [lowered.index(s)] finds the subject the inner loop stopped at. *)
Lemma list_index_map (lower : list N -> list N) (kw : str)
    (pre : list (list N)) g (post : list (list N)) :
  Forall (fun x => str_in kw (lower x) = false) pre ->
  str_in kw (lower g) = true ->
  list_index (lower g) (List.map lower (pre ++ g :: post)) = Some (length pre).
Proof.
  intros Hpre Hg. induction Hpre as [| x pre Hx _ IH];
    cbn [app List.map list_index length].
  - unfold str_eqb. now rewrite bool_decide_eq_true_2.
  - unfold str_eqb. rewrite bool_decide_eq_false_2.
    + fold (str_eqb). rewrite IH. reflexivity.
    + intros Heq. rewrite Heq in Hx. congruence.
Qed.

(** The outer loop. *)
Lemma first_keyword_hit_spec (keywords lowered : list (list N)) :
  match first_keyword_hit keywords lowered with
  | Some s =>
      exists before kw after,
        keywords = before ++ kw :: after
        /\ Forall (fun k => first_containing k lowered = None) before
        /\ first_containing kw lowered = Some s
  | None => Forall (fun k => first_containing k lowered = None) keywords
  end.
Proof.
  induction keywords as [| kw keywords IH]; cbn [first_keyword_hit];
    [constructor |].
  destruct (first_containing kw lowered) as [s |] eqn:E.
  - exists [], kw, keywords. repeat split; auto.
  - destruct (first_keyword_hit keywords lowered) as [s |].
    + destruct IH as (before & kw' & after & -> & Hb & Hkw).
      exists (kw :: before), kw', after. repeat split; auto.
    + now constructor.
Qed.

Lemma first_keyword_hit_app (before after lowered : list (list N)) :
  Forall (fun k => first_containing k lowered = None) before ->
  first_keyword_hit (before ++ after) lowered = first_keyword_hit after lowered.
Proof.
  induction 1 as [| k before Hk _ IH]; cbn [app first_keyword_hit];
    [reflexivity |].
  now rewrite Hk.
Qed.

(** The two ways out of the function on a list that is not empty. *)
Lemma choose_genre_from_cases (keywords : list (list N))
    (lower : list N -> list N) (first : list N) (others : list (list N)) :
  (exists before kw after pre g post,
     keywords = before ++ kw :: after
     /\ Forall (fun k => Forall (fun x => str_in k (lower x) = false)
                           (first :: others)) before
     /\ first :: others = pre ++ g :: post
     /\ Forall (fun x => str_in kw (lower x) = false) pre
     /\ str_in kw (lower g) = true
     /\ choose_genre_from keywords lower (first :: others) = Some g)
  \/ (Forall (fun k => Forall (fun x => str_in k (lower x) = false)
                         (first :: others)) keywords
      /\ choose_genre_from keywords lower (first :: others) =
           Some (match List.filter is_short (first :: others) with
                 | short :: _ => short
                 | [] => first
                 end)).
Proof.
  assert (Hnone : forall k,
            first_containing k (List.map lower (first :: others)) = None ->
            Forall (fun x => str_in k (lower x) = false) (first :: others)).
  { intros k Hk. pose proof (first_containing_map lower k (first :: others)) as H.
    now rewrite Hk in H. }
  unfold choose_genre_from. cbv zeta.
  pose proof (first_keyword_hit_spec keywords
                (List.map lower (first :: others))) as H.
  destruct (first_keyword_hit keywords (List.map lower (first :: others)))
    as [s |].
  - left. destruct H as (before & kw & after & Hkws & Hb & Hkw).
    pose proof (first_containing_map lower kw (first :: others)) as Hm.
    rewrite Hkw in Hm. destruct Hm as (pre & g & post & Hsub & -> & Hg & Hpre).
    exists before, kw, after, pre, g, post.
    split; [exact Hkws |]. split.
    { eapply Forall_impl; [exact Hb | exact Hnone]. }
    split; [exact Hsub |]. split; [exact Hpre |]. split; [exact Hg |].
    rewrite Hsub, (list_index_map lower kw pre g post Hpre Hg).
    cbn [mbind option_bind]. now apply list_lookup_middle.
  - right. split; [eapply Forall_impl; [exact H | exact Hnone] |].
    now destruct (List.filter is_short (first :: others)).
Qed.

(** X14. [_choose_genre] raises nothing: the empty list gives the empty
    string, and any other list gives one of its subjects. *)
Theorem choose_genre_member (lower : list N -> list N)
    (subjects : list (list N)) :
  _choose_genre lower [] = Some []
  /\ (subjects <> [] ->
      exists g, _choose_genre lower subjects = Some g /\ In g subjects).
Proof.
  split; [reflexivity |]. intros Hne.
  destruct subjects as [| first others]; [congruence |].
  unfold _choose_genre.
  destruct (choose_genre_from_cases genre_keywords lower first others)
    as [(before & kw & after & pre & g & post & _ & _ & Hsub & _ & _ & Hres)
       | [_ Hres]].
  - exists g. split; [exact Hres |]. rewrite Hsub.
    apply in_or_app. right. now left.
  - rewrite Hres. eexists. split; [reflexivity |].
    destruct (List.filter is_short (first :: others)) as [| short l] eqn:E;
      [now left |].
    assert (Hin : In short (List.filter is_short (first :: others)))
      by (rewrite E; now left).
    now apply List.filter_In in Hin.
Qed.

Lemma choose_genre_member_witness :
  exists g,
    _choose_genre ascii_lower [py "Sea stories"; py "Whaling -- Fiction"] = Some g
    /\ In g [py "Sea stories"; py "Whaling -- Fiction"].
Proof.
  apply (choose_genre_member ascii_lower
           [py "Sea stories"; py "Whaling -- Fiction"]).
  discriminate.
Defined.

(** X15. The keywords are tried in the order of the list, and a keyword
    decides for the first subject that contains it: when no keyword before
    [kw] occurs in a lowered subject, and [g] is the first subject whose
    lowered form contains [kw], [_choose_genre] returns [g], in its
    original case. *)
Theorem choose_genre_keyword (lower : list N -> list N)
    (before : list (list N)) (kw : str) (after : list (list N))
    (pre : list (list N)) (g : str) (post : list (list N)) :
  genre_keywords = before ++ kw :: after ->
  Forall (fun k => Forall (fun x => str_in k (lower x) = false)
                     (pre ++ g :: post)) before ->
  Forall (fun x => str_in kw (lower x) = false) pre ->
  str_in kw (lower g) = true ->
  _choose_genre lower (pre ++ g :: post) = Some g.
Proof.
  intros Hkws Hbefore Hpre Hg.
  unfold _choose_genre, choose_genre_from. rewrite Hkws.
  assert (Hhit : first_keyword_hit (before ++ kw :: after)
                   (List.map lower (pre ++ g :: post)) = Some (lower g)).
  { rewrite first_keyword_hit_app.
    - cbn [first_keyword_hit].
      now rewrite (first_containing_hit lower kw pre g post Hpre Hg).
    - eapply Forall_impl; [exact Hbefore |].
      intros k Hk. now apply first_containing_none. }
  pose proof (list_index_map lower kw pre g post Hpre Hg) as Hidx.
  assert (Hlook : (pre ++ g :: post) !! length pre = Some g)
    by now apply list_lookup_middle.
  destruct pre as [| x pre]; cbn [app] in *; cbv zeta;
    rewrite Hhit, Hidx; cbn [mbind option_bind]; exact Hlook.
Qed.

Lemma choose_genre_keyword_witness :
  _choose_genre ascii_lower
    ([py "Sea stories"; py "Adventure stories"]
       ++ py "Psychological Fiction" :: [py "Science fiction"])
  = Some (py "Psychological Fiction").
Proof.
  apply (choose_genre_keyword ascii_lower [] (py "fiction")
           (List.tl genre_keywords)).
  - reflexivity.
  - constructor.
  - repeat constructor.
  - vm_compute. reflexivity.
Defined.

Lemma head_filter_spec (f : list N -> bool) (l : list (list N)) :
  match List.filter f l with
  | x :: _ =>
      exists pre post, l = pre ++ x :: post /\ f x = true
                       /\ Forall (fun y => f y = false) pre
  | [] => Forall (fun y => f y = false) l
  end.
Proof.
  induction l as [| y l IH]; cbn [List.filter]; [constructor |].
  destruct (f y) eqn:E.
  - exists [], l. repeat split; auto.
  - destruct (List.filter f l) as [| x t].
    + now constructor.
    + destruct IH as (pre & post & -> & Hx & Hpre).
      exists (y :: pre), post. repeat split; auto.
Qed.

(** X16. When no keyword occurs in any lowered subject, [_choose_genre]
    returns the first subject of at most four words, and the first subject
    of the list when every subject has more than four words. *)
Theorem choose_genre_fallback (lower : list N -> list N) (first : list N)
    (others : list (list N)) :
  Forall (fun k => Forall (fun x => str_in k (lower x) = false)
                     (first :: others)) genre_keywords ->
  exists g,
    _choose_genre lower (first :: others) = Some g
    /\ ((exists pre post,
           first :: others = pre ++ g :: post /\ is_short g = true
           /\ Forall (fun y => is_short y = false) pre)
        \/ (Forall (fun y => is_short y = false) (first :: others)
            /\ g = first)).
Proof.
  intros Hno. unfold _choose_genre.
  destruct (choose_genre_from_cases genre_keywords lower first others)
    as [(before & kw & after & pre & g & post & Hkws & _ & Hsub & _ & Hg & _)
       | [_ Hres]].
  - exfalso. rewrite Hkws in Hno. apply Forall_app in Hno as [_ Hno].
    apply Forall_cons in Hno as [Hno _]. rewrite Hsub in Hno.
    apply Forall_app in Hno as [_ Hno]. apply Forall_cons in Hno as [Hno _].
    congruence.
  - rewrite Hres. eexists. split; [reflexivity |].
    pose proof (head_filter_spec is_short (first :: others)) as H.
    destruct (List.filter is_short (first :: others)) as [| short l].
    + now right.
    + left. exact H.
Qed.

Lemma choose_genre_fallback_witness :
  exists g,
    _choose_genre ascii_lower
      [py "Whales and the men who hunt them"; py "Sea stories"] = Some g
    /\ ((exists pre post,
           [py "Whales and the men who hunt them"; py "Sea stories"]
           = pre ++ g :: post /\ is_short g = true
           /\ Forall (fun y => is_short y = false) pre)
        \/ (Forall (fun y => is_short y = false)
              [py "Whales and the men who hunt them"; py "Sea stories"]
            /\ g = py "Whales and the men who hunt them")).
Proof.
  apply (choose_genre_fallback ascii_lower
           (py "Whales and the men who hunt them") [py "Sea stories"]).
  unfold genre_keywords.
  repeat (constructor; [repeat constructor |]). constructor.
Defined.

(** X17. The keyword ["science fiction"] never decides: a subject that
    contains it contains ["fiction"], which is tried first. Without this
    keyword in the list the function returns the same subject. *)
Theorem choose_genre_science_fiction (lower : list N -> list N)
    (subjects : list (list N)) :
  _choose_genre lower subjects =
  choose_genre_from
    (List.filter (fun k => negb (str_eqb k (py "science fiction")))
       genre_keywords)
    lower subjects.
Proof.
  unfold _choose_genre, choose_genre_from.
  destruct subjects as [| first others]; [reflexivity |]. cbv zeta.
  set (lowered := List.map lower (first :: others)).
  assert (Hhit :
    first_keyword_hit genre_keywords lowered =
    first_keyword_hit
      (List.filter (fun k => negb (str_eqb k (py "science fiction")))
         genre_keywords) lowered).
  { change genre_keywords
      with (py "fiction" :: (List.map py ["novel"; "poetry"; "drama"]%string
              ++ py "science fiction"
              :: List.map py ["fantasy"; "mystery"; "detective"; "horror";
                              "romance"; "children"; "biography";
                              "historical"; "adventure"; "satire"]%string)).
    change (List.filter _ _)
      with (py "fiction" :: (List.map py ["novel"; "poetry"; "drama"]%string
              ++ List.map py ["fantasy"; "mystery"; "detective"; "horror";
                              "romance"; "children"; "biography";
                              "historical"; "adventure"; "satire"]%string)).
    cbn [first_keyword_hit].
    destruct (first_containing (py "fiction") lowered) as [s |] eqn:Efic;
      [reflexivity |].
    generalize (List.map py ["novel"; "poetry"; "drama"]%string).
    intros mid. induction mid as [| k mid IH]; cbn [app first_keyword_hit].
    - assert (Hsf : first_containing (py "science fiction") lowered = None).
      { pose proof (first_containing_map lower (py "fiction") (first :: others))
          as Hf. fold lowered in Hf. rewrite Efic in Hf.
        apply first_containing_none.
        eapply Forall_impl; [exact Hf |]. intros x Hx. cbv beta in Hx.
        destruct (str_in (py "science fiction") (lower x)) eqn:E;
          [| reflexivity].
        apply str_in_spec in E as (pre & post & E).
        assert (Hin : str_in (py "fiction") (lower x) = true).
        { apply str_in_spec. exists (pre ++ py "science "), post.
          rewrite E, <- !app_assoc. reflexivity. }
        congruence. }
      now rewrite Hsf.
    - now rewrite IH. }
  now rewrite Hhit.
Qed.

(** ** [_extract_publication_date] *)

Lemma space_plus_then_found (k : list N -> option (list N)) (s : str) r :
  space_plus_then k s = Some r ->
  exists pre suf, s = pre ++ suf /\ k suf = Some r.
Proof.
  induction s as [| c s IH]; cbn [space_plus_then]; [discriminate |].
  destruct (isspace c); [| discriminate].
  destruct (space_plus_then k s) as [r' |].
  - intros [= <-]. destruct (IH eq_refl) as (pre & suf & -> & Hk).
    now exists (c :: pre), suf.
  - intros Hk. now exists [c], s.
Qed.

Lemma four_digits_spec (isdigit : N -> bool) (s d : str) :
  four_digits isdigit s = Some d ->
  length d = 4%nat /\ Forall (fun c => isdigit c = true) d
  /\ exists rest, s = d ++ rest.
Proof.
  unfold four_digits. destruct s as [| a [| b [| c [| e rest]]]]; try discriminate.
  destruct (isdigit a) eqn:Ea; [| discriminate].
  destruct (isdigit b) eqn:Eb; [| discriminate].
  destruct (isdigit c) eqn:Ec; [| discriminate].
  destruct (isdigit e) eqn:Ee; [| discriminate].
  cbn [andb]. intros [= <-]. split; [reflexivity |].
  split; [now repeat constructor | now exists rest].
Qed.

Lemma published_in_spec (ieq : N -> N -> bool) (isdigit : N -> bool)
    (s d : str) :
  published_in ieq isdigit s = Some d ->
  length d = 4%nat /\ Forall (fun c => isdigit c = true) d
  /\ exists pre rest, s = pre ++ d ++ rest.
Proof.
  unfold published_in.
  destruct (istartswith ieq (py "published") s); [| discriminate].
  intros H. apply space_plus_then_found in H as (pre1 & t & Ht & H).
  destruct (istartswith ieq (py "in") t); [| discriminate].
  apply space_plus_then_found in H as (pre2 & u & Hu & H).
  apply four_digits_spec in H as (Hlen & Hd & rest & ->).
  split; [exact Hlen |]. split; [exact Hd |].
  exists (take (length (py "published")) s ++ pre1
            ++ take (length (py "in")) t ++ pre2), rest.
  rewrite <- (take_drop (length (py "published")) s) at 1.
  rewrite Ht. rewrite <- (take_drop (length (py "in")) t) at 1.
  rewrite Hu. now rewrite <- !app_assoc.
Qed.

Lemma optional_word_then_found (ieq : N -> N -> bool) (word : str)
    (k : list N -> option (list N)) (s : str) r :
  optional_word_then ieq word k s = Some r ->
  exists pre suf, s = pre ++ suf /\ k suf = Some r.
Proof.
  unfold optional_word_then.
  destruct (istartswith ieq word s).
  - destruct (space_plus_then k (drop (length word) s)) as [r' |] eqn:E.
    + intros [= <-]. apply space_plus_then_found in E as (pre & suf & Hs & Hk).
      exists (take (length word) s ++ pre), suf. split; [| exact Hk].
      rewrite <- (take_drop (length word) s) at 1. rewrite Hs.
      now rewrite <- app_assoc.
    + intros Hk. now exists [], s.
  - intros Hk. now exists [], s.
Qed.

Lemma optional_word_then_complete (ieq : N -> N -> bool) (word : str)
    (k : list N -> option (list N)) (s : str) r :
  k s = Some r -> is_Some (optional_word_then ieq word k s).
Proof.
  intros Hk. unfold optional_word_then.
  destruct (if istartswith ieq word s then _ else None); [now eexists |].
  rewrite Hk. now eexists.
Qed.

(** Where the second pattern matches, the first one matches too. *)
Lemma second_pattern_redundant (ieq : N -> N -> bool) (isdigit : N -> bool)
    (s : str) :
  re_search (optional_word_then ieq (py "first") (published_in ieq isdigit)) s
  = None ->
  re_search (optional_word_then ieq (py "originally")
               (published_in ieq isdigit)) s = None.
Proof.
  intros H1.
  destruct (re_search (optional_word_then ieq (py "originally") _) s)
    as [r |] eqn:H2; [exfalso | reflexivity].
  apply re_search_found in H2 as (pre & suf & -> & H2).
  apply optional_word_then_found in H2 as (pre' & suf' & -> & Hk).
  destruct (optional_word_then_complete ieq (py "first") _ _ _ Hk) as [r' Hr'].
  destruct (re_search_complete _ (pre ++ pre') suf' r' Hr') as [r'' Hr''].
  rewrite <- app_assoc in Hr''. congruence.
Qed.

Lemma extract_publication_date_eq (ieq : N -> N -> bool) (isdigit : N -> bool)
    (s : str) :
  _extract_publication_date ieq isdigit s =
  re_search (optional_word_then ieq (py "first") (published_in ieq isdigit)) s.
Proof.
  unfold _extract_publication_date. destruct s as [| c s]; [reflexivity |].
  cbn [date_patterns first_search].
  destruct (re_search (optional_word_then ieq (py "first") _) (c :: s))
    as [r |] eqn:H1; [reflexivity |].
  now rewrite (second_pattern_redundant ieq isdigit _ H1).
Qed.

(** X18. A publication date returned by [_extract_publication_date] is a
    string of exactly four digits that stands in the summary text. *)
Theorem extract_publication_date_year (ieq : N -> N -> bool)
    (isdigit : N -> bool) (summary_text d : str) :
  _extract_publication_date ieq isdigit summary_text = Some d ->
  length d = 4%nat /\ Forall (fun c => isdigit c = true) d
  /\ exists pre rest, summary_text = pre ++ d ++ rest.
Proof.
  rewrite extract_publication_date_eq. intros H.
  apply re_search_found in H as (pre & suf & -> & H).
  apply optional_word_then_found in H as (pre' & suf' & -> & H).
  apply published_in_spec in H as (Hlen & Hd & pre'' & rest & ->).
  split; [exact Hlen |]. split; [exact Hd |].
  exists (pre ++ pre' ++ pre''), rest. now rewrite <- !app_assoc.
Qed.

Lemma extract_publication_date_year_witness :
  length (py "1851") = 4%nat
  /\ Forall (fun c => ascii_isdigit c = true) (py "1851")
  /\ exists pre rest,
       py "Moby Dick was First  published in 1851." = pre ++ py "1851" ++ rest.
Proof.
  apply (extract_publication_date_year ascii_ieq ascii_isdigit
           (py "Moby Dick was First  published in 1851.") (py "1851")).
  vm_compute. reflexivity.
Defined.

(** X19. The second pattern of [_extract_publication_date] never decides:
    wherever ["(?:originally\s+)?published\s+in\s+(\d{4})"] matches, the
    first pattern matches too, so the function returns what the search for
    the first pattern alone returns. *)
Theorem extract_publication_date_first_pattern (ieq : N -> N -> bool)
    (isdigit : N -> bool) (summary_text : str) :
  _extract_publication_date ieq isdigit summary_text =
  first_search [optional_word_then ieq (py "first") (published_in ieq isdigit)]
    summary_text.
Proof.
  rewrite extract_publication_date_eq. cbn [first_search].
  now destruct (re_search _ summary_text).
Qed.

(** * The offsets [locate_anchor] chooses *)

(** ** The matches of [re.finditer], stated on occurrences *)

Lemma matches_from_skip (pat s : str) (from : Z) (ps : list Z) :
  ~ occurs_at pat s from ->
  matches_from pat s (from + 1) ps -> matches_from pat s from ps.
Proof.
  intros Hno H. inversion H as [f Hnone | f k ps' Hle Hocc Hmin Hrest]; subst.
  - apply matches_none. intros k Hk Hocc.
    destruct (Z.eq_dec k from) as [-> | Hne]; [exact (Hno Hocc) |].
    apply (Hnone k); [lia | exact Hocc].
  - apply matches_cons; [lia | exact Hocc | | exact Hrest].
    intros k' Hk' Hocc'.
    destruct (Z.eq_dec k' from) as [-> | Hne]; [exact (Hno Hocc') |].
    apply (Hmin k'); [lia | exact Hocc'].
Qed.

Lemma startswith_length (pat s : str) :
  startswith pat s = true -> (length pat <= length s)%nat.
Proof.
  intros H. apply startswith_spec in H as [after ->].
  rewrite length_app. lia.
Qed.

(** The scan of [finditer_from], at offset [n] of [s] with [skip]
    characters of the last match still to pass. *)
Lemma finditer_from_matches (pat s : str) (rest : str) :
  forall n skip : nat,
  rest = drop n s -> (n <= length s)%nat -> (n + skip <= length s)%nat ->
  (pat = [] -> skip = 0%nat) ->
  matches_from pat s (Z.of_nat (n + skip))
    (finditer_from pat rest (Z.of_nat n) skip).
Proof.
  induction rest as [| c rest IH]; intros n skip Hrest Hn Hskip Hpat;
    cbn [finditer_from].
  - assert (Hlen : n = length s).
    { apply (f_equal length) in Hrest. rewrite length_drop in Hrest.
      cbn [length] in Hrest. lia. }
    assert (skip = 0)%nat by lia. subst skip. rewrite Nat.add_0_r.
    destruct pat as [| p pat].
    + apply matches_cons; [lia | | lia |].
      * apply occurs_at_drop. exists n. split; [reflexivity |].
        split; [lia | reflexivity].
      * apply matches_none. intros k Hk Hocc.
        apply occurs_at_drop in Hocc as (m & -> & Hm & _).
        unfold len in Hk. cbn [length] in Hk. lia.
    + apply matches_none. intros k Hk Hocc.
      apply occurs_at_drop in Hocc as (m & -> & Hm & Hsw).
      assert (m = n) by lia. subst m. rewrite <- Hrest in Hsw.
      discriminate Hsw.
  - assert (Hlt : (n < length s)%nat).
    { apply (f_equal length) in Hrest. rewrite length_drop in Hrest.
      cbn [length] in Hrest. lia. }
    assert (Hrest' : rest = drop (S n) s).
    { replace (S n) with (n + 1)%nat by lia.
      rewrite <- drop_drop, <- Hrest. reflexivity. }
    replace (Z.of_nat n + 1) with (Z.of_nat (S n)) by lia.
    destruct skip as [| skip].
    + rewrite Nat.add_0_r.
      destruct (startswith pat (c :: rest)) eqn:E.
      * assert (Hocc : occurs_at pat s (Z.of_nat n)).
        { apply occurs_at_drop. exists n. split; [reflexivity |].
          split; [lia | now rewrite <- Hrest]. }
        apply matches_cons; [lia | exact Hocc | lia |].
        pose proof (startswith_length _ _ E) as Hlen. cbn [length] in Hlen.
        assert (Hrl : length (c :: rest) = (length s - n)%nat)
          by (rewrite Hrest; apply length_drop).
        cbn [length] in Hrl.
        replace (Z.of_nat n + Z.max 1 (len pat))
          with (Z.of_nat (S n + (length pat - 1))) by (unfold len; lia).
        apply IH; [exact Hrest' | lia | lia |].
        intros ->. reflexivity.
      * apply matches_from_skip.
        -- intros Hocc. apply occurs_at_drop in Hocc as (m & Hm & _ & Hsw).
           assert (m = n) by lia. subst m. rewrite <- Hrest in Hsw. congruence.
        -- replace (Z.of_nat n + 1) with (Z.of_nat (S n + 0)) by lia.
           apply IH; [exact Hrest' | lia | lia | reflexivity].
    + replace (n + S skip)%nat with (S n + skip)%nat by lia.
      apply IH; [exact Hrest' | lia | lia |].
      intros Hp. specialize (Hpat Hp). discriminate Hpat.
Qed.

Lemma finditer_starts_matches (pat s : str) :
  nonoverlapping_matches pat s (finditer_starts pat s).
Proof.
  unfold nonoverlapping_matches, finditer_starts.
  apply (finditer_from_matches pat s s 0 0); [reflexivity | lia | lia | reflexivity].
Qed.

(** The matches are determined by the pattern and the string. *)
Lemma matches_from_unique (pat s : str) (from : Z) (ps1 ps2 : list Z) :
  matches_from pat s from ps1 -> matches_from pat s from ps2 -> ps1 = ps2.
Proof.
  intros H1. revert ps2.
  induction H1 as [from Hnone | from k ps Hle Hocc Hmin _ IH]; intros ps2 H2;
    inversion H2 as [f Hnone2 | f k2 ps2' Hle2 Hocc2 Hmin2 Hrest2]; subst.
  - reflexivity.
  - exfalso. exact (Hnone k2 Hle2 Hocc2).
  - exfalso. exact (Hnone2 k Hle Hocc).
  - assert (k = k2).
    { destruct (Z.lt_trichotomy k k2) as [Hlt | [Heq | Hgt]]; [| exact Heq |].
      - exfalso. apply (Hmin2 k); [lia | exact Hocc].
      - exfalso. apply (Hmin k2); [lia | exact Hocc2]. }
    subst k2. f_equal. now apply IH.
Qed.

Lemma nonoverlapping_matches_finditer (pat s : str) (ps : list Z) :
  nonoverlapping_matches pat s ps -> ps = finditer_starts pat s.
Proof.
  intros H. exact (matches_from_unique _ _ _ _ _ H (finditer_starts_matches pat s)).
Qed.

(** ** The choice of the Occurrence Selector *)

Lemma pick_loop_none (positions : list Z) (text : str) anchor_len :
  Forall (fun q => ~ followed_by_blank_line text anchor_len q) positions ->
  pick_loop positions text anchor_len = None.
Proof.
  induction 1 as [| q positions Hq _ IH]; cbn [pick_loop]; [reflexivity |].
  cbv zeta. destruct (str_eqb _ _) eqn:E; [| exact IH].
  exfalso. apply Hq. now apply followed_by_blank_line_eqb.
Qed.

Lemma pick_loop_first (before after : list Z) (k : Z) (text : str) anchor_len :
  Forall (fun q => ~ followed_by_blank_line text anchor_len q) before ->
  followed_by_blank_line text anchor_len k ->
  pick_loop (before ++ k :: after) text anchor_len = Some k.
Proof.
  intros Hb Hk. induction Hb as [| q before Hq _ IH]; cbn [app pick_loop];
    cbv zeta.
  - apply followed_by_blank_line_eqb in Hk. now rewrite Hk.
  - destruct (str_eqb _ _) eqn:E; [| exact IH].
    exfalso. apply Hq. now apply followed_by_blank_line_eqb.
Qed.

Lemma selector_choice_pick (text : str) anchor_len (ps : list Z) (k : Z) :
  selector_choice text anchor_len ps k <->
  ps <> [] /\ _pick_best_occurrence ps text anchor_len = Some k.
Proof.
  unfold _pick_best_occurrence. split.
  - intros [(before & after & -> & Hk & Hb) | [Hno Hhead]].
    + split; [now destruct before |]. now rewrite (pick_loop_first _ _ _ _ _ Hb Hk).
    + split; [intros ->; discriminate Hhead |].
      now rewrite (pick_loop_none _ _ _ Hno).
  - intros [Hne Hpick].
    pose proof (pick_loop_spec ps text anchor_len) as H.
    destruct (pick_loop ps text anchor_len) as [p |].
    + injection Hpick as ->. left. exact H.
    + right. split; [exact H | exact Hpick].
Qed.

(** ** The line that Strategy 2 retains *)

Lemma split_lines_nonempty (s : str) : split_lines s <> [].
Proof.
  destruct s as [| c s]; cbn [split_lines]; [discriminate |].
  destruct (c =? LF)%N; [discriminate |]. now destruct (split_lines s).
Qed.

(** A string is its first line, or its first line, a newline and the
    rest, whose lines are the other lines. *)
Lemma split_lines_first (s : str) :
  exists seg tl,
    split_lines s = seg :: tl /\ Forall (fun c => c <> LF) seg
    /\ ((s = seg /\ tl = [])
        \/ exists r, s = seg ++ LF :: r /\ tl = split_lines r).
Proof.
  induction s as [| c s (seg & tl & Hsplit & Hseg & Hcase)]; cbn [split_lines].
  - exists [], []. split; [reflexivity |]. split; [constructor | now left].
  - destruct (c =? LF)%N eqn:E.
    + apply N.eqb_eq in E. subst c. exists [], (split_lines s).
      split; [reflexivity |]. split; [constructor |]. right. now exists s.
    + apply N.eqb_neq in E. rewrite Hsplit. exists (c :: seg), tl.
      split; [reflexivity |]. split; [now constructor |].
      destruct Hcase as [[-> ->] | (r & -> & ->)]; [now left |].
      right. now exists r.
Qed.

Lemma nonblank_iff (line : str) :
  nonblank line = true <-> ~ Forall (fun c => isspace c = true) line.
Proof.
  unfold nonblank. split.
  - intros H Hsp. now rewrite (strip_all_space line Hsp) in H.
  - intros H. destruct (strip line) as [| c t] eqn:E; [| reflexivity].
    exfalso. apply H. destruct (strip_split line) as (w1 & w2 & Hl & H1 & H2).
    rewrite Hl, E. cbn [app]. now apply Forall_app.
Qed.

Lemma filter_nonblank_nil_iff (s : str) :
  List.filter nonblank (split_lines s) = [] <->
  Forall (fun c => isspace c = true) s.
Proof.
  split; [| intros H; apply filter_nonblank_all_space;
            now apply split_lines_all_space].
  remember (length s) as n eqn:Hn. revert s Hn.
  induction n as [n IH] using lt_wf_ind. intros s Hn.
  destruct (split_lines_first s) as (seg & tl & Hsplit & _ & Hcase).
  rewrite Hsplit. cbn [List.filter].
  destruct (nonblank seg) eqn:Enb; [discriminate |].
  assert (Hseg : Forall (fun c => isspace c = true) seg).
  { destruct (decide (Forall (fun c => isspace c = true) seg)) as [H | H];
      [exact H |].
    apply nonblank_iff in H. congruence. }
  destruct Hcase as [[-> ->] | (r & -> & ->)]; [intros _; exact Hseg |].
  intros Hr. apply Forall_app. split; [exact Hseg |].
  constructor; [reflexivity |].
  apply (IH (length r)); [| reflexivity | exact Hr].
  subst n. rewrite length_app. cbn [length]. lia.
Qed.

Lemma split_lines_app (a b : str) :
  split_lines (a ++ LF :: b) = split_lines a ++ split_lines b.
Proof.
  induction a as [| c a IH]; cbn [app split_lines]; [reflexivity |].
  destruct (c =? LF)%N; [now rewrite IH |].
  rewrite IH. pose proof (split_lines_nonempty a) as Hne.
  now destruct (split_lines a).
Qed.

Lemma split_lines_one (l : str) :
  Forall (fun c => c <> LF) l -> split_lines l = [l].
Proof.
  induction 1 as [| c l Hc _ IH]; cbn [split_lines]; [reflexivity |].
  apply N.eqb_neq in Hc. now rewrite Hc, IH.
Qed.

(** The lines of a line followed by nothing or by a newline and more. *)
Lemma split_lines_line (line after : str) :
  Forall (fun c => c <> LF) line ->
  after = [] \/ head after = Some LF ->
  exists tl, split_lines (line ++ after) = line :: tl
             /\ (Forall (fun c => isspace c = true) after ->
                 List.filter nonblank tl = []).
Proof.
  intros Hline [-> | Hhead].
  - exists []. rewrite app_nil_r. split; [now apply split_lines_one | reflexivity].
  - destruct after as [| c r]; [discriminate Hhead |].
    injection Hhead as ->. exists (split_lines r).
    rewrite split_lines_app, (split_lines_one line Hline).
    split; [reflexivity |]. intros Hsp. apply Forall_cons in Hsp as [_ Hsp].
    now apply filter_nonblank_nil_iff.
Qed.

Lemma retained_line_selected (marker line : str) (is_start : bool) :
  retained_line marker is_start line ->
  (if is_start then head (List.filter nonblank (split_lines marker))
   else last (List.filter nonblank (split_lines marker))) = Some line.
Proof.
  intros (Hline & Hnb & before & after & -> & Hbefore & Hafter & Hside).
  apply nonblank_iff in Hnb.
  destruct (split_lines_line line after Hline Hafter) as (tl & Hsplit & Htl).
  assert (Hlines : exists pre,
            split_lines (before ++ line ++ after) = pre ++ line :: tl
            /\ (Forall (fun c => isspace c = true) before ->
                List.filter nonblank pre = [])).
  { destruct Hbefore as [-> | Hlast].
    - exists []. split; [exact Hsplit | reflexivity].
    - apply last_Some in Hlast as [b ->]. exists (split_lines b).
      rewrite <- app_assoc. cbn [app]. rewrite split_lines_app, Hsplit.
      split; [reflexivity |]. intros Hsp. apply Forall_app in Hsp as [Hsp _].
      now apply filter_nonblank_nil_iff. }
  destruct Hlines as (pre & -> & Hpre).
  rewrite List.filter_app. cbn [List.filter]. rewrite Hnb.
  destruct is_start.
  - now rewrite (Hpre Hside).
  - rewrite (Htl Hside). change (?x ++ [line]) with (x ++ [line]).
    apply last_snoc.
Qed.

Lemma last_app_cons_LF (a b : str) :
  b = [] \/ last b = Some LF -> last (a ++ LF :: b) = Some LF.
Proof.
  intros [-> | Hb].
  - change (a ++ [LF]) with (a ++ [LF]). apply last_snoc.
  - apply last_Some in Hb as [b' ->].
    change (a ++ LF :: b' ++ [LF]) with (a ++ (LF :: b') ++ [LF]).
    rewrite app_assoc. apply last_snoc.
Qed.

Lemma blank_segment (seg : str) :
  nonblank seg = false -> Forall (fun c => isspace c = true) seg.
Proof.
  intros Hnb.
  destruct (decide (Forall (fun c => isspace c = true) seg)) as [H | H];
    [exact H |].
  apply nonblank_iff in H. congruence.
Qed.

Lemma selected_head_retained (marker line : str) :
  head (List.filter nonblank (split_lines marker)) = Some line ->
  retained_line marker true line.
Proof.
  remember (length marker) as n eqn:Hn. revert marker Hn.
  induction n as [n IH] using lt_wf_ind. intros s Hn.
  destruct (split_lines_first s) as (seg & tl & Hsplit & Hseg & Hcase).
  rewrite Hsplit. cbn [List.filter].
  destruct (nonblank seg) eqn:Enb.
  - intros [= <-]. split; [exact Hseg |].
    split; [now apply nonblank_iff |].
    exists [].
    destruct Hcase as [[-> ->] | (r & -> & ->)].
    + exists []. rewrite app_nil_r. repeat split; auto.
    + exists (LF :: r). repeat split; auto.
  - destruct Hcase as [[-> ->] | (r & -> & ->)]; [discriminate |].
    intros Hhead.
    assert (Hlt : (length r < n)%nat)
      by (subst n; rewrite length_app; cbn [length]; lia).
    destruct (IH (length r) Hlt r eq_refl Hhead)
      as (Hline & Hnb & before & after & -> & Hbefore & Hafter & Hside).
    split; [exact Hline |]. split; [exact Hnb |].
    exists (seg ++ LF :: before), after.
    split; [now rewrite <- app_assoc |].
    split; [right; now apply last_app_cons_LF |].
    split; [exact Hafter |].
    apply Forall_app. split; [now apply blank_segment |].
    now constructor.
Qed.

Lemma selected_last_retained (marker line : str) :
  last (List.filter nonblank (split_lines marker)) = Some line ->
  retained_line marker false line.
Proof.
  remember (length marker) as n eqn:Hn. revert marker Hn.
  induction n as [n IH] using lt_wf_ind. intros s Hn.
  destruct (split_lines_first s) as (seg & tl & Hsplit & Hseg & Hcase).
  rewrite Hsplit. cbn [List.filter].
  destruct Hcase as [[-> ->] | (r & -> & ->)].
  - cbn [List.filter]. destruct (nonblank seg) eqn:Enb; [| discriminate].
    intros [= <-]. split; [exact Hseg |].
    split; [now apply nonblank_iff |].
    exists [], []. rewrite app_nil_r. repeat split; auto.
  - destruct (List.filter nonblank (split_lines r)) as [| l ls] eqn:Er.
    + destruct (nonblank seg) eqn:Enb; [| discriminate].
      intros [= <-]. split; [exact Hseg |].
      split; [now apply nonblank_iff |].
      exists [], (LF :: r). split; [reflexivity |].
      split; [now left |]. split; [now right |].
      constructor; [reflexivity | now apply filter_nonblank_nil_iff].
    + intros Hlast.
      assert (Hlast' : last (l :: ls) = Some line).
      { destruct (nonblank seg); [| exact Hlast].
        exact Hlast. }
      assert (Hlt : (length r < n)%nat)
        by (subst n; rewrite length_app; cbn [length]; lia).
      rewrite <- Er in Hlast'.
      destruct (IH (length r) Hlt r eq_refl Hlast')
        as (Hline & Hnb & before & after & -> & Hbefore & Hafter & Hside).
      split; [exact Hline |]. split; [exact Hnb |].
      exists (seg ++ LF :: before), after.
      split; [now rewrite <- app_assoc |].
      split; [right; now apply last_app_cons_LF |].
      split; [exact Hafter | exact Hside].
Qed.

Lemma last_cons_is_Some_str (l : list N) (ls : list (list N)) :
  exists q, last (l :: ls) = Some q.
Proof.
  revert l. induction ls as [| l' ls IH]; intros l; [now exists l |].
  destruct (IH l') as [q Hq]. now exists q.
Qed.

(** A marker that is not all whitespace has a retained line. *)
Lemma retained_line_exists (marker : str) (is_start : bool) :
  ~ Forall (fun c => isspace c = true) marker ->
  exists line, retained_line marker is_start line.
Proof.
  intros Hns.
  destruct (List.filter nonblank (split_lines marker)) as [| l ls] eqn:E.
  - exfalso. apply Hns. now apply filter_nonblank_nil_iff.
  - destruct is_start.
    + exists l. apply selected_head_retained. now rewrite E.
    + destruct (last_cons_is_Some_str l ls) as [q Hq].
      exists q. apply selected_last_retained. now rewrite E.
Qed.

(** ** The single-line fallback, with its chosen offset *)

Lemma strategy1_unreturnable_nothing (norm_text norm_marker : str)
    (is_start : bool) (cm : gmap Z Z) :
  strategy1_unreturnable norm_text norm_marker is_start cm ->
  strategy1_nothing norm_text norm_marker is_start cm.
Proof.
  intros [Habs | (k & Hk & Hnone)]; [now left |].
  right. exists k. split; [| exact Hnone].
  destruct is_start; [| exact Hk].
  destruct Hk as (ps & Hps & Hsel).
  apply nonoverlapping_matches_finditer in Hps. subst ps.
  now apply selector_choice_pick in Hsel.
Qed.

(** What Strategy 2 returns for the offset it chooses among the matches of
    the retained line. *)
Lemma single_line_fallback_chosen (norm_text marker line : str)
    (is_start : bool) (cm : gmap Z Z) (k : Z) :
  retained_line marker is_start line ->
  (if is_start
   then selector_choice norm_text (len (normalise line))
          (finditer_starts (normalise line) norm_text) k
   else last (finditer_starts (normalise line) norm_text) = Some k) ->
  single_line_fallback norm_text marker is_start cm =
    match cm !! k with
    | Some o => Some (o, len (normalise line))
    | None => Some (-1, 0)
    end.
Proof.
  intros Hline Hk. apply retained_line_selected in Hline.
  unfold single_line_fallback. rewrite Hline.
  destruct (finditer_starts (normalise line) norm_text) as [| p ps] eqn:E.
  - exfalso. destruct is_start; [| discriminate Hk].
    apply selector_choice_pick in Hk as [Hne _]. congruence.
  - destruct is_start.
    + apply selector_choice_pick in Hk as [_ ->]. cbn [mbind option_bind].
      now destruct (cm !! k).
    + rewrite Hk. cbn [mbind option_bind]. now destruct (cm !! k).
Qed.

(** C3. Whenever Strategy 1 yields nothing returnable, [locate_anchor]
    splits the original marker on newlines and drops the lines that are
    empty or all whitespace. No line remains exactly when the marker is made
    of whitespace only, and then it returns [(-1, 0)]. Otherwise it
    normalises the first remaining line for a start anchor (the last one
    for an end anchor) and searches the normalised text for it: it returns
    [(-1, 0)] when the line does not occur, and else takes the offset [k]
    chosen among the matches (by the Occurrence Selector for a start
    anchor, the last match for an end anchor) and returns [(-1, 0)] when
    [k] is not a key of the Position Map and [(map[k], len(line_marker))]
    when it is, the length being that of the normalised line. In particular
    [locate_anchor("hello world", "goodbye", true) == (-1, 0)]. *)
Theorem locate_anchor_fallback (text marker : str) (is_start : bool)
    (cm : gmap Z Z) :
  _map_norm_to_orig text (normalise text) = Some cm ->
  strategy1_unreturnable (normalise text) (normalise marker) is_start cm ->
  (Forall (fun c => isspace c = true) marker ->
   locate_anchor text marker is_start = Some (-1, 0))
  /\ (~ Forall (fun c => isspace c = true) marker ->
      exists line, retained_line marker is_start line)
  /\ (forall line,
        retained_line marker is_start line ->
        ((forall k, ~ occurs_at (normalise line) (normalise text) k) ->
         locate_anchor text marker is_start = Some (-1, 0))
        /\ ((exists k, occurs_at (normalise line) (normalise text) k) ->
            exists ps k,
              nonoverlapping_matches (normalise line) (normalise text) ps
              /\ (if is_start
                  then selector_choice (normalise text)
                         (len (normalise line)) ps k
                  else last ps = Some k)
              /\ locate_anchor text marker is_start =
                   match cm !! k with
                   | Some o => Some (o, len (normalise line))
                   | None => Some (-1, 0)
                   end))
  /\ locate_anchor (py "hello world") (py "goodbye") true = Some (-1, 0).
Proof.
  intros Hcm Hno. apply strategy1_unreturnable_nothing in Hno.
  rewrite (locate_anchor_falls_through text marker is_start cm Hcm Hno).
  split; [| split; [| split]].
  - intros Hsp. unfold single_line_fallback.
    rewrite (proj2 (filter_nonblank_nil_iff marker) Hsp). now destruct is_start.
  - apply retained_line_exists.
  - intros line Hline. split.
    + intros Habs.
      exact (proj1 (single_line_fallback_line _ _ _ _ cm
                      (retained_line_selected _ _ _ Hline)) Habs).
    + intros [k0 Hk0].
      pose proof (finditer_starts_found _ _ _ Hk0) as Hne.
      exists (finditer_starts (normalise line) (normalise text)).
      assert (Hk : exists k,
                if is_start
                then selector_choice (normalise text) (len (normalise line))
                       (finditer_starts (normalise line) (normalise text)) k
                else last (finditer_starts (normalise line) (normalise text))
                     = Some k).
      { destruct is_start.
        - destruct (pick_best_occurrence_spec _ (normalise text)
                      (len (normalise line)) Hne) as (k & Hpick & _).
          exists k. now apply selector_choice_pick.
        - destruct (finditer_starts (normalise line) (normalise text))
            as [| p ps]; [congruence |].
          destruct (last_cons_is_Some p ps) as (q & Hq & _). now exists q. }
      destruct Hk as [k Hk]. exists k.
      split; [apply finditer_starts_matches |]. split; [exact Hk |].
      now apply single_line_fallback_chosen.
  - vm_compute. reflexivity.
Qed.

Lemma locate_anchor_fallback_witness :
  (Forall (fun c => isspace c = true) chapter_marker ->
   locate_anchor chapter_text chapter_marker true = Some (-1, 0))
  /\ (~ Forall (fun c => isspace c = true) chapter_marker ->
      exists line, retained_line chapter_marker true line)
  /\ (forall line,
        retained_line chapter_marker true line ->
        ((forall k, ~ occurs_at (normalise line) (normalise chapter_text) k) ->
         locate_anchor chapter_text chapter_marker true = Some (-1, 0))
        /\ ((exists k, occurs_at (normalise line) (normalise chapter_text) k) ->
            exists ps k,
              nonoverlapping_matches (normalise line) (normalise chapter_text) ps
              /\ selector_choice (normalise chapter_text)
                   (len (normalise line)) ps k
              /\ locate_anchor chapter_text chapter_marker true =
                   match chapter_map !! k with
                   | Some o => Some (o, len (normalise line))
                   | None => Some (-1, 0)
                   end))
  /\ locate_anchor (py "hello world") (py "goodbye") true = Some (-1, 0).
Proof.
  apply (locate_anchor_fallback chapter_text chapter_marker true chapter_map).
  - vm_compute. reflexivity.
  - left. apply finditer_starts_nil. vm_compute. reflexivity.
Defined.

(** An end anchor found by the fallback: the last line of the marker
    occurs twice in the text, and the later match is returned. *)
Example locate_end_fallback :
  locate_anchor (py "x THE END y THE END") (py "nope" ++ [LF] ++ py "THE END")
    false = Some (12, 7).
Proof. vm_compute. reflexivity. Qed.

(** ** [locate_anchor]: the end anchor found *)

(** X20. For an end anchor whose normalised form is not empty and occurs in
    the normalised text, Strategy 1 always returns: the last occurrence [k]
    is a key of the Position Map, and [locate_anchor(text, marker, False)]
    is [(map[k], len(marker))], the offset in [text] of the first character
    of that occurrence. *)
Theorem locate_anchor_end_found (text marker : str) :
  normalise marker <> [] ->
  (exists k, occurs_at (normalise marker) (normalise text) k) ->
  exists (cm : gmap Z Z) (k o : Z),
    _map_norm_to_orig text (normalise text) = Some cm
    /\ last_occurrence (normalise marker) (normalise text) k
    /\ cm !! k = Some o
    /\ locate_anchor text marker false = Some (o, len marker)
    /\ 0 <= o < len text
    /\ exists c, getitem text o = Some c /\ isspace c = false
                 /\ head (normalise marker) = Some c.
Proof.
  intros Hne [k0 Hk0].
  destruct (position_map_built text) as (cm & Hcm & Hdom & Hval & _).
  assert (Hr : rfind (normalise text) (normalise marker) <> -1).
  { intros Hr. exact (rfind_none _ _ Hr k0 Hk0). }
  pose proof (rfind_last _ _ Hr) as Hlast.
  set (k := rfind (normalise text) (normalise marker)) in *.
  destruct (occurs_at_normalised_head marker _ k Hne (proj1 Hlast))
    as (c & Hc & Hsp & Hhead).
  assert (Hk : is_Some (cm !! k)) by (apply Hdom; now exists c).
  destruct Hk as [o Ho].
  destruct (Hval k o Ho) as (c' & Hc' & Hco & _).
  rewrite Hc in Hc'. injection Hc' as <-.
  exists cm, k, o. split; [exact Hcm |]. split; [exact Hlast |].
  split; [exact Ho |]. split; [| split].
  - unfold locate_anchor. rewrite Hcm. cbn [mbind option_bind]. cbv zeta.
    fold k. replace (k =? -1) with false by (symmetry; now apply Z.eqb_neq).
    cbn [negb]. now rewrite Ho.
  - exact (map_value_in_text _ _ _ _ Hcm Ho).
  - exists c. apply char_at_Some in Hco as (j & -> & Hj).
    rewrite getitem_of_nat. auto.
Qed.

Lemma locate_anchor_end_found_witness :
  exists (cm : gmap Z Z) (k o : Z),
    _map_norm_to_orig (py "THE END. THE END") (normalise (py "THE END. THE END"))
    = Some cm
    /\ last_occurrence (normalise (py "THE END"))
         (normalise (py "THE END. THE END")) k
    /\ cm !! k = Some o
    /\ locate_anchor (py "THE END. THE END") (py "THE END") false
       = Some (o, len (py "THE END"))
    /\ 0 <= o < len (py "THE END. THE END")
    /\ exists c, getitem (py "THE END. THE END") o = Some c /\ isspace c = false
                 /\ head (normalise (py "THE END")) = Some c.
Proof.
  apply (locate_anchor_end_found (py "THE END. THE END") (py "THE END")).
  - vm_compute. discriminate.
  - exists 0. exists [], (py ". THE END"). split; vm_compute; reflexivity.
Defined.

(** * [normalise] and the parts of a text *)

(** ** Each step of [normalise] works on both sides of a character that is
    not whitespace *)


















(** ** The Position Map and the parts of the text *)





(** ** The start anchor: full match *)





(** The stretch of the text that normalises to the marker in the example
    above is ["a  b"], of length 4, where the length returned is 3. *)
Example locate_round_trip_length :
  locate_anchor (py "a  b a b") (py "a b") true = Some (0, 3)
  /\ normalise (slice (py "a  b a b") 0 (0 + 4)) = normalise (py "a b").
Proof. split; vm_compute; reflexivity. Qed.
